(** * electron-notify: the notification lifecycle scheduler of [index.js]

    A shallow embedding of the main-process module [src/index.js]:
    the [AnimationQueue] serializer, the id counter of [notify], the
    admission test of [showNotification], the close function built by
    [buildCloseNotification], the two ipc handlers and [closeAll].

    JavaScript runs every handler to completion, so one handler (an API
    call, a timer callback, an ipc message, a promise reaction) is one
    atomic step of the model.  Promises are the only source of
    asynchrony: a pending promise is an entry of an in-flight list and
    its reaction is a separate step, which the environment may take at
    any later time or never.

    What is left to the collaborators:
    - window positions and the move animation ([calcInsertPos],
      [moveOneDown], [nextInsertPos]) are not part of the state; the
      promise of [moveOneDown] is a promise that resolves later;
    - calls on windows, [console.log], [shell.openExternal] and the
      caller's callbacks are recorded in a trace; they do not fail and
      the callbacks do not call back into the module;
    - notification objects are plain extensible objects; numbers are
      integers (a JavaScript number is exact below 2^53).

    Beside the scheduler, three smaller modules embed the code around
    it, each on its own state: [Geometry] (the numbers of [config],
    [calcDimensions], [setConfig], [calcInsertPos], [moveOneDown] and
    the interval callback of [moveNotificationAnimation]), [Template]
    (the template path functions) and [Preload] (the renderer script
    [src/preload.js]: [setContents], [reset] and the click listeners). *)

From stdpp Require Import gmap strings list.
From Stdlib Require Import ZArith Lia.

(** ** The AnimationQueue object  (index.js, lines 12-50) *)

Module AnimationQueue.

Section Queue.
Context {T : Type}.

(** [this.queue] and [this.running]; [this.options] is never read. *)
Record t := mk { queue : list T; running : bool }.

(** [new AnimationQueue()] *)
Definition create : t := mk [] false.

(** [AnimationQueue.prototype.push]: the second component is the object
    handed to [this.animate], if any. *)
Definition push (object : T) (q : t) : t * option T :=
  if running q
  then (mk (queue q ++ [object]) (running q), None)
  else (mk (queue q) true, Some object).

(** The [.then] reaction inside [animate]: [queue.shift()] and animate
    it, or go idle. *)
Definition fulfilled (q : t) : t * option T :=
  match queue q with
  | next :: rest => (mk rest (running q), Some next)
  | [] => (mk [] false, None)
  end.

(** [AnimationQueue.prototype.clear] *)
Definition clear (q : t) : t := mk [] (running q).
End Queue.

Arguments t : clear implicits.

(** *** The queue driving abstract tasks

  A task is any value [object]; calling [object.func] returns a promise
  that the environment later fulfils or rejects.  [inflight] lists the
  tasks whose promise is still pending, [started] records every call of
  [object.func] in order, [logged] counts the runs of the [.catch]
  reaction. *)

Section Driver.
Context {T : Type}.

Record world := World {
  aq : t T;
  inflight : list T;
  started : list T;
  logged : nat
}.

Definition init : world := World create [] [] 0.

Inductive event :=
| Push (object : T)       (* animationQueue.push(object) *)
| Fulfil (i : nat)        (* the i-th pending promise resolves *)
| Reject (i : nat)        (* the i-th pending promise rejects *)
| Clear.                  (* animationQueue.clear() *)

(** [animate]: call [object.func], which returns a promise; the promise
    becomes pending. *)
Definition animate (o : option T) (w : world) : world :=
  match o with
  | Some object =>
      World (aq w) (inflight w ++ [object]) (started w ++ [object]) (logged w)
  | None => w
  end.

Definition step (e : event) (w : world) : world :=
  match e with
  | Push object =>
      let '(q, o) := push object (aq w) in
      animate o (World q (inflight w) (started w) (logged w))
  | Fulfil i =>
      match inflight w !! i with
      | Some _ =>
          let '(q, o) := fulfilled (aq w) in
          animate o (World q (delete i (inflight w)) (started w) (logged w))
      | None => w
      end
  | Reject i =>
      match inflight w !! i with
      | Some _ => World (aq w) (delete i (inflight w)) (started w) (S (logged w))
      | None => w
      end
  | Clear => World (clear (aq w)) (inflight w) (started w) (logged w)
  end.

Definition run (es : list event) (w : world) : world :=
  foldl (fun w e => step e w) w es.

(** The objects pushed by a sequence of events, in order. *)
Definition pushes (es : list event) : list T :=
  omap (fun e => match e with Push object => Some object | _ => None end) es.

(** What a queue that never starts anything holds after a sequence of
    events: pushes append, [clear] empties. *)
Definition backlog (q : list T) (es : list event) : list T :=
  foldl (fun q e =>
           match e with
           | Push object => q ++ [object]
           | Clear => []
           | _ => q
           end) q es.

Definition has_clear (es : list event) : bool :=
  existsb (fun e => match e with Clear => true | _ => false end) es.

(** Idle means nothing pending and nothing in flight; never two
    promises in flight. *)
Definition serial (w : world) : Prop :=
  length (inflight w) ≤ 1
  ∧ (running (aq w) = false → inflight w = [] ∧ queue (aq w) = []).

(** A queue whose running flag is set with nothing in flight. *)
Definition stalled (w : world) : Prop :=
  running (aq w) = true ∧ inflight w = [].
End Driver.

Arguments world : clear implicits.
Arguments event : clear implicits.

End AnimationQueue.

(** ** JavaScript values and notification objects *)

Abbreviation ref := nat (only parsing).      (* identity of a JS object *)
Abbreviation win := nat (only parsing).      (* a BrowserWindow, by its id *)
Abbreviation timer := nat (only parsing).    (* a timeout handle *)

Inductive val :=
| VUndefined
| VNull
| VBool (b : bool)
| VNum (n : Z)        (* integral numbers; exact below 2^53 *)
| VStr (s : string)
| VFun (f : nat)      (* a function, opaque to the scheduler *)
| VObj (r : ref).

(** [typeof v] *)
Definition typeof (v : val) : string :=
  match v with
  | VUndefined => "undefined"
  | VNull => "object"
  | VBool _ => "boolean"
  | VNum _ => "number"
  | VStr _ => "string"
  | VFun _ => "function"
  | VObj _ => "object"
  end.

(** ToBoolean, as used by [if (x)] and [x ? a : b]. *)
Definition truthy (v : val) : bool :=
  match v with
  | VUndefined | VNull => false
  | VBool b => b
  | VNum n => negb (n =? 0)%Z
  | VStr s => negb (String.eqb s "")
  | VFun _ | VObj _ => true
  end.

(** A plain object is a finite map from property names to values; the
    heap maps references to objects, so that two holders of one reference
    see each other's writes. *)
Abbreviation object := (gmap string val) (only parsing).
Abbreviation heap_t := (gmap nat (gmap string val)) (only parsing).

Definition prop (o : object) (k : string) : val := default VUndefined (o !! k).

(** ** Scheduler state *)

(** The function returned by [buildCloseNotification]: it closes over the
    window, the notification object and, when built in [showNotification],
    the variable holding the timeout handle. *)
Record closer := Closer {
  notificationWindow : win;
  notificationObj : ref;
  getTimeoutId : option timer
}.

(** [buildCloseNotification(notificationWindow, notificationObj,
    getTimeoutId)]; the getter is absent ([undefined]) in the ipc
    handlers. *)
Definition buildCloseNotification (notificationWindow : win)
    (notificationObj : ref) (getTimeoutId : option timer) : closer :=
  Closer notificationWindow notificationObj getTimeoutId.

(** The objects pushed on the animation queue: [{func, args}]. *)
Inductive task :=
| Show (notification : ref)                 (* func: showNotification *)
| Close (closeFunc : closer) (reason : val). (* func: closeFunc *)

(** A pending promise of a started task. *)
Inductive pending :=
| AwaitWindow (notification : ref) (w : win) (fresh : bool)
    (* [getWindow()] has not yet run the callback of [showNotification];
       [fresh] when the window was created and still loads *)
| Resolved.
    (* the task's promise resolves without further effect on the
       scheduler; the queue's [.then] reaction has not run yet *)

(** Calls into the collaborators and the caller's callbacks. *)
Inductive obs :=
| Log (msg : string)
| OnShow (notification : ref) (id : val) (closeNotification : closer)
| OnClose (notification : ref) (event : val) (id : val)
| OnClick (notification : ref) (id : val) (closeNotification : closer)
| OpenExternal (url : val)
| NewWindow (w : win)
| Send (w : win) (channel : string)
| ShowInactive (w : win)
| Hide (w : win)
| WinClose (w : win)
| SetTimeout (t : timer) (delay : val)
| ClearTimeout (t : timer)
| Completed (c : val)          (* notify returned c *)
| Raised.                      (* notify threw a TypeError *)

Record config_t := Config {
  displayTime : Z;
  logging : bool;
  maxVisibleNotifications : Z
}.

Record state := State {
  heap : heap_t;
  config : config_t;
  latestID : Z;
  animationQueue : AnimationQueue.t task;
  promises : list pending;
  activeNotifications : list win;
  inactiveWindows : list win;
  notificationQueue : list ref;
  nextWindow : win;                  (* windows created so far *)
  timers : list (timer * closer);    (* armed timeouts *)
  nextTimer : timer;
  handles : list closer;             (* closeNotification functions given out *)
  trace : list obs
}.

(** *** Geometry at load time (lines 52-57, 163-166, 190-192) *)

Definition config_height : Z := 65.
Definition config_padding : Z := 10.

(** [calcDimensions]: [config.totalHeight = config.height + config.padding] *)
Definition totalHeight : Z := config_height + config_padding.

(** [Math.floor(display.workAreaSize.height / config.totalHeight)], then
    the cap [(m > 7) ? 7 : m]. *)
Definition maxVisible (workAreaHeight : Z) : Z :=
  let m := (workAreaHeight / totalHeight)%Z in
  if (m >? 7)%Z then 7%Z else m.

Definition init (workAreaHeight : Z) (h : heap_t) : state :=
  State h (Config 5000 true (maxVisible workAreaHeight)) 0
        AnimationQueue.create [] [] [] [] 0 [] 0 [] [].

(** *** Field updates *)

Definition set_heap (h : heap_t) (s : state) : state :=
  State h (config s) (latestID s) (animationQueue s) (promises s)
        (activeNotifications s) (inactiveWindows s) (notificationQueue s)
        (nextWindow s) (timers s) (nextTimer s) (handles s) (trace s).

Definition set_latestID (n : Z) (s : state) : state :=
  State (heap s) (config s) n (animationQueue s) (promises s)
        (activeNotifications s) (inactiveWindows s) (notificationQueue s)
        (nextWindow s) (timers s) (nextTimer s) (handles s) (trace s).

Definition set_animationQueue (q : AnimationQueue.t task) (s : state) : state :=
  State (heap s) (config s) (latestID s) q (promises s)
        (activeNotifications s) (inactiveWindows s) (notificationQueue s)
        (nextWindow s) (timers s) (nextTimer s) (handles s) (trace s).

Definition set_promises (p : list pending) (s : state) : state :=
  State (heap s) (config s) (latestID s) (animationQueue s) p
        (activeNotifications s) (inactiveWindows s) (notificationQueue s)
        (nextWindow s) (timers s) (nextTimer s) (handles s) (trace s).

Definition set_activeNotifications (a : list win) (s : state) : state :=
  State (heap s) (config s) (latestID s) (animationQueue s) (promises s)
        a (inactiveWindows s) (notificationQueue s)
        (nextWindow s) (timers s) (nextTimer s) (handles s) (trace s).

Definition set_inactiveWindows (a : list win) (s : state) : state :=
  State (heap s) (config s) (latestID s) (animationQueue s) (promises s)
        (activeNotifications s) a (notificationQueue s)
        (nextWindow s) (timers s) (nextTimer s) (handles s) (trace s).

Definition set_notificationQueue (a : list ref) (s : state) : state :=
  State (heap s) (config s) (latestID s) (animationQueue s) (promises s)
        (activeNotifications s) (inactiveWindows s) a
        (nextWindow s) (timers s) (nextTimer s) (handles s) (trace s).

Definition set_nextWindow (w : win) (s : state) : state :=
  State (heap s) (config s) (latestID s) (animationQueue s) (promises s)
        (activeNotifications s) (inactiveWindows s) (notificationQueue s)
        w (timers s) (nextTimer s) (handles s) (trace s).

Definition set_timers (t : list (timer * closer)) (s : state) : state :=
  State (heap s) (config s) (latestID s) (animationQueue s) (promises s)
        (activeNotifications s) (inactiveWindows s) (notificationQueue s)
        (nextWindow s) t (nextTimer s) (handles s) (trace s).

Definition set_nextTimer (t : timer) (s : state) : state :=
  State (heap s) (config s) (latestID s) (animationQueue s) (promises s)
        (activeNotifications s) (inactiveWindows s) (notificationQueue s)
        (nextWindow s) (timers s) t (handles s) (trace s).

Definition set_handles (l : list closer) (s : state) : state :=
  State (heap s) (config s) (latestID s) (animationQueue s) (promises s)
        (activeNotifications s) (inactiveWindows s) (notificationQueue s)
        (nextWindow s) (timers s) (nextTimer s) l (trace s).

Definition emit (o : obs) (s : state) : state :=
  State (heap s) (config s) (latestID s) (animationQueue s) (promises s)
        (activeNotifications s) (inactiveWindows s) (notificationQueue s)
        (nextWindow s) (timers s) (nextTimer s) (handles s) (trace s ++ [o]).

(** [obj.k] and [obj.k = v] through a reference; a reference the heap
    does not list is an object without properties. *)
Definition get_obj (s : state) (r : ref) : object := default ∅ (heap s !! r).

Definition get_field (r : ref) (k : string) (s : state) : val :=
  prop (get_obj s r) k.

Definition set_field (r : ref) (k : string) (v : val) (s : state) : state :=
  set_heap (<[r := <[k := v]> (get_obj s r)]> (heap s)) s.

(** [log]: prints only when [config.logging === true]. *)
Definition log (msg : string) (s : state) : state :=
  if logging (config s) then emit (Log msg) s else s.

(** ** The scheduler's functions *)

(** [Array.prototype.indexOf] on windows: the first position, or -1. *)
Fixpoint indexOf (w : win) (l : list win) : Z :=
  match l with
  | [] => -1
  | x :: rest =>
      if Nat.eqb x w then 0%Z
      else let i := indexOf w rest in
           if (i <? 0)%Z then (-1)%Z else (i + 1)%Z
  end.

(** [l.splice(start, 1)]: a negative [start] counts from the end (and is
    clamped at 0), a [start] beyond the end removes nothing. *)
Definition splice1 (start : Z) (l : list win) : list win :=
  let len := Z.of_nat (length l) in
  let from := if (start <? 0)%Z then Z.max (len + start) 0 else Z.min start len in
  delete (Z.to_nat from) l.

(** [getWindow], the synchronous part: pop an inactive window or create
    one.  The result is the window the returned promise resolves with and
    whether it was created. *)
Definition getWindow (s : state) : win * bool * state :=
  match last (inactiveWindows s) with
  | Some w => (w, false, set_inactiveWindows (removelast (inactiveWindows s)) s)
  | None =>
      let w := nextWindow s in
      (w, true, emit (NewWindow w) (set_nextWindow (S w) s))
  end.

(** [showNotification], the promise executor (lines 229-232, 270-274). *)
Definition showNotification (notification : ref) (s : state) : pending * state :=
  if (Z.of_nat (length (activeNotifications s))
        <? maxVisibleNotifications (config s))%Z
  then
    let '(w, fresh, s1) := getWindow s in
    (AwaitWindow notification w fresh, s1)
  else
    (Resolved,
     set_notificationQueue (notificationQueue s ++ [notification]) s).

(** [setTimeout(function() { closeNotificationSafely('timeout') }, delay)] *)
Definition setTimeout (closeFunc : closer) (delay : val) (s : state) : state :=
  let t := nextTimer s in
  emit (SetTimeout t delay)
    (set_nextTimer (S t) (set_timers (timers s ++ [(t, closeFunc)]) s)).

(** [clearTimeout(timeoutId)] *)
Definition clearTimeout (t : timer) (s : state) : state :=
  emit (ClearTimeout t)
    (set_timers (filter (fun p => fst p ≠ t) (timers s)) s).

(** The callback of [getWindow().then] in [showNotification]
    (lines 233-268).  Window positions are not part of the state. *)
Definition showNotification_then (notification : ref) (w : win) (s : state)
  : state :=
  let s := set_activeNotifications (activeNotifications s ++ [w]) s in
  let delay :=
    if truthy (get_field notification "displayTime" s)
    then get_field notification "displayTime" s
    else VNum (displayTime (config s)) in
  let closeFunc := buildCloseNotification w notification (Some (nextTimer s)) in
  let s := setTimeout closeFunc delay s in
  let s :=
    if truthy (get_field notification "onShowFunc" s)
    then emit (OnShow notification (get_field notification "id" s) closeFunc)
           (set_handles (handles s ++ [closeFunc]) s)
    else s in
  let s := emit (Send w "node-desktop-notification-set-contents") s in
  emit (ShowInactive w) s.

(** [animate] on a show task: call [showNotification]; its promise is
    pending from now on. *)
Definition animate_show (notification : ref) (s : state) : state :=
  let '(p, s1) := showNotification notification s in
  set_promises (promises s1 ++ [p]) s1.

(** [animationQueue.push({func: showNotification, args: [notification]})] *)
Definition push_show (notification : ref) (s : state) : state :=
  let '(q, o) := AnimationQueue.push (Show notification) (animationQueue s) in
  match o with
  | Some _ => animate_show notification (set_animationQueue q s)
  | None => set_animationQueue q s
  end.

(** [checkForQueuedNotifications] *)
Definition checkForQueuedNotifications (s : state) : state :=
  match notificationQueue s with
  | notification :: rest =>
      if (Z.of_nat (length (activeNotifications s))
            <? maxVisibleNotifications (config s))%Z
      then push_show notification (set_notificationQueue rest s)
      else s
  | [] => s
  end.

(** The function returned by [buildCloseNotification] (lines 280-313).
    The promise it returns ([moveOneDown]) only moves windows. *)
Definition closeFunc (c : closer) (event : val) (s : state) : state :=
  let r := notificationObj c in
  let w := notificationWindow c in
  if truthy (get_field r "closed" s) then s
  else
    let s := set_field r "closed" (VBool true) s in
    let s :=
      if truthy (get_field r "onCloseFunc" s)
      then emit (OnClose r event (get_field r "id" s)) s
      else s in
    let s := emit (Send w "node-desktop-notification-reset") s in
    let s :=
      match getTimeoutId c with
      | Some timeoutId => clearTimeout timeoutId s
      | None => s
      end in
    let pos := indexOf w (activeNotifications s) in
    let s := set_activeNotifications (splice1 pos (activeNotifications s)) s in
    let s := set_inactiveWindows (inactiveWindows s ++ [w]) s in
    let s := emit (Hide w) s in
    checkForQueuedNotifications s.

(** [animate] on a close task. *)
Definition animate_close (c : closer) (event : val) (s : state) : state :=
  let s1 := closeFunc c event s in
  set_promises (promises s1 ++ [Resolved]) s1.

Definition animate (o : option task) (s : state) : state :=
  match o with
  | Some (Show notification) => animate_show notification s
  | Some (Close c event) => animate_close c event s
  | None => s
  end.

(** The function returned by [buildCloseNotificationSafely(closeFunc)],
    called [closeNotificationSafely] in [showNotification]. *)
Definition closeNotificationSafely (c : closer) (reason : val) (s : state)
  : state :=
  let reason :=
    match reason with VUndefined => VStr "closedByAPI" | _ => reason end in
  let '(q, o) := AnimationQueue.push (Close c reason) (animationQueue s) in
  match o with
  | Some _ => animate_close c reason (set_animationQueue q s)
  | None => set_animationQueue q s
  end.

(** How a call of [notify] completes. *)
Inductive completion :=
| Return (v : val)
| Throw.            (* TypeError: cannot set property 'id' of null *)

(** [notify] (lines 209-226), applied to its [arguments]. *)
Definition notify (arguments : list val) (s : state) : completion * state :=
  match arguments with
  | [notification] =>
      if String.eqb (typeof notification) "object" then
        match notification with
        | VObj r =>
            let s := set_field r "id" (VNum (latestID s)) s in
            let s := set_latestID (latestID s + 1) s in
            let s := push_show r s in
            (Return (get_field r "id" s), s)
        | _ => (Throw, s)
        end
      else
        (Return VUndefined,
         log "node-desktop-notification: ERROR notify() only accepts a single object with notification parameters." s)
  | _ =>
      (Return VUndefined,
       log "node-desktop-notification: ERROR notify() only accepts a single object with notification parameters." s)
  end.

(** [closeAll] (lines 452-465); [nextInsertPos = {}] is geometry. *)
Definition closeAll (s : state) : state :=
  let s := set_animationQueue (AnimationQueue.clear (animationQueue s)) s in
  let s := foldl (fun s w => emit (WinClose w) s) s (activeNotifications s) in
  let s := foldl (fun s w => emit (WinClose w) s) s (inactiveWindows s) in
  set_inactiveWindows [] (set_activeNotifications [] s).

(** [ipc.on('node-desktop-notification-close', ...)] *)
Definition ipc_close (winId : win) (notification : ref) (s : state) : state :=
  let closeFunc := buildCloseNotification winId notification None in
  closeNotificationSafely closeFunc (VStr "close") s.

(** [ipc.on('node-desktop-notification-click', ...)] *)
Definition ipc_click (winId : win) (notification : ref) (s : state) : state :=
  let s :=
    if truthy (get_field notification "url" s)
    then emit (OpenExternal (get_field notification "url" s)) s
    else s in
  if truthy (get_field notification "onClickFunc" s)
  then
    let closeFunc := buildCloseNotification winId notification None in
    emit (OnClick notification (get_field notification "id" s) closeFunc)
      (set_handles (handles s ++ [closeFunc]) s)
  else s.

(** ** One handler at a time *)

Inductive event :=
| Notify (arguments : list val)           (* the caller: notify(...) *)
| CloseAll                                (* the caller: closeAll() *)
| WindowReady (i : nat)                   (* [getWindow()] resolves *)
| TaskDone (i : nat)                      (* a task's promise is fulfilled *)
| Timeout (t : timer)                     (* a display timer fires *)
| CallClose (k : nat) (reason : val)      (* the caller: closeNotification(reason) *)
| IpcClose (winId : win) (notification : ref)
| IpcClick (winId : win) (notification : ref).

Definition step (e : event) (s : state) : state :=
  match e with
  | Notify arguments =>
      match notify arguments s with
      | (Return v, s1) => emit (Completed v) s1
      | (Throw, s1) => emit Raised s1
      end
  | CloseAll => closeAll s
  | WindowReady i =>
      match promises s !! i with
      | Some (AwaitWindow notification w fresh) =>
          let s := if fresh
                   then emit (Send w "node-desktop-notification-load-config") s
                   else s in
          let s := showNotification_then notification w s in
          set_promises (<[i := Resolved]> (promises s)) s
      | _ => s
      end
  | TaskDone i =>
      match promises s !! i with
      | Some Resolved =>
          let '(q, o) := AnimationQueue.fulfilled (animationQueue s) in
          animate o (set_promises (delete i (promises s))
                       (set_animationQueue q s))
      | _ => s
      end
  | Timeout t =>
      match list_find (fun p => fst p = t) (timers s) with
      | Some (_, (_, c)) =>
          closeNotificationSafely c (VStr "timeout")
            (set_timers (filter (fun p => fst p ≠ t) (timers s)) s)
      | None => s
      end
  | CallClose k reason =>
      match handles s !! k with
      | Some c => closeNotificationSafely c reason s
      | None => s
      end
  | IpcClose winId notification =>
      if winId <? nextWindow s then ipc_close winId notification s else s
  | IpcClick winId notification =>
      if winId <? nextWindow s then ipc_click winId notification s else s
  end.

Definition run (es : list event) (s : state) : state :=
  foldl (fun s e => step e s) s es.

(** ** What the caller and the collaborators see *)

(** The ids that calls of [notify] returned, oldest first. *)
Definition returned_ids (s : state) : list Z :=
  omap (fun o => match o with Completed (VNum n) => Some n | _ => None end)
       (trace s).

(** The calls [notify(obj)] with exactly one argument, an object. *)
Definition is_valid_call (e : event) : bool :=
  match e with
  | Notify [VObj _] => true
  | _ => false
  end.

Definition valid_calls (es : list event) : nat :=
  length (List.filter is_valid_call es).

(** The windows shown so far. *)
Definition shown (s : state) : list win :=
  omap (fun o => match o with ShowInactive w => Some w | _ => None end)
       (trace s).

(** The reasons with which [onCloseFunc] was called for the object [r]. *)
Definition onClose_calls (r : ref) (s : state) : list val :=
  omap (fun o => match o with
                 | OnClose r' event _ => if Nat.eqb r' r then Some event else None
                 | _ => None
                 end) (trace s).

(** The windows on which [close()] was called. *)
Definition destroyed (s : state) : list win :=
  omap (fun o => match o with WinClose w => Some w | _ => None end) (trace s).

(** ** Relations between states used in the proofs *)

(** Observations other than a returned id do not show in [returned_ids]. *)
Definition silent (o : obs) : Prop :=
  match o with Completed (VNum _) => False | _ => True end.

(** [s'] has the configuration and the counter of [s] and has returned
    no further id. *)
Definition same_ids (s s' : state) : Prop :=
  config s' = config s
  ∧ latestID s' = latestID s
  ∧ returned_ids s' = returned_ids s.

(** While a task runs: [s'] has the configuration and the pending
    promises of [s], still runs, and has no more active windows. *)
Definition quiet (s s' : state) : Prop :=
  AnimationQueue.running (animationQueue s) = true →
  config s' = config s
  ∧ promises s' = promises s
  ∧ AnimationQueue.running (animationQueue s') = true
  ∧ length (activeNotifications s') ≤ length (activeNotifications s).

(** The capacity invariant together with what makes it inductive: at
    most one task is in flight, none when the queue is idle, and a show
    task that waits for its window was admitted below the limit.  The
    limit may be negative (it is not clamped from below); the active
    list is then empty. *)
Definition capacity_inv (s : state) : Prop :=
  let limit := maxVisibleNotifications (config s) in
  length (promises s) ≤ 1
  ∧ (AnimationQueue.running (animationQueue s) = false → promises s = [])
  ∧ (∀ r w f, AwaitWindow r w f ∈ promises s →
       (Z.of_nat (length (activeNotifications s)) < limit)%Z)
  ∧ (Z.of_nat (length (activeNotifications s)) ≤ Z.max 0 limit)%Z.

(** [notificationObj.closed] is truthy. *)
Definition is_closed (r : ref) (s : state) : bool :=
  truthy (get_field r "closed" s).

(** What no handler does to the notification objects: properties other
    than [id] and [closed] keep their value, and an object that is closed
    stays closed and sees no further call of its [onCloseFunc]. *)
Definition preserves (r : ref) (s s' : state) : Prop :=
  (∀ r' k, k ≠ "id" → k ≠ "closed" → get_field r' k s' = get_field r' k s)
  ∧ (is_closed r s = true →
     is_closed r s' = true ∧ onClose_calls r s' = onClose_calls r s).

(** [s'] has the armed timers of [s]. *)
Definition same_timers (s s' : state) : Prop := timers s' = timers s.

(** The object [r] has an [onCloseFunc] or not, as [f] says, and the
    function was called once if the object is closed and has one, and
    not at all otherwise. *)
Definition closed_once (r : ref) (f : bool) (s : state) : Prop :=
  truthy (get_field r "onCloseFunc" s) = f
  ∧ length (onClose_calls r s) = if is_closed r s && f then 1 else 0.

Definition keeps_once (r : ref) (f : bool) (s s' : state) : Prop :=
  closed_once r f s → closed_once r f s'.

(** ** Where the requests are *)

Definition is_show (t : task) : bool :=
  match t with Show _ => true | Close _ _ => false end.

Definition is_awaiting (p : pending) : bool :=
  match p with AwaitWindow _ _ _ => true | Resolved => false end.

(** Show tasks that wait in the animation queue. *)
Definition queued_shows (s : state) : nat :=
  length (List.filter is_show (AnimationQueue.queue (animationQueue s))).

(** Show tasks that wait for their window. *)
Definition awaiting (s : state) : nat :=
  length (List.filter is_awaiting (promises s)).

(** The requests the scheduler still holds or has shown. *)
Definition accounted (s : state) : nat :=
  queued_shows s + awaiting s + length (notificationQueue s) + length (shown s).

Definition balanced (s s' : state) : Prop := accounted s' = accounted s.

Definition is_closeAll (e : event) : bool :=
  match e with CloseAll => true | _ => false end.

(** ** Geometry: [calcDimensions], [setConfig], [calcInsertPos] and the
    move animation (index.js, lines 129-132, 162-192, 369-420) *)

Module Geometry.

Record point := Point { x : Z; y : Z }.

(** [screen.getPrimaryDisplay()], the numbers the module reads. *)
Record display := Display {
  bounds : point;
  workArea : point;
  workAreaSize_width : Z;
  workAreaSize_height : Z
}.

(** The numeric part of [config]. *)
Record config := Config {
  width : Z;
  height : Z;
  padding : Z;
  animationSteps : Z;
  lowerRightCorner : point;
  totalHeight : Z;
  totalWidth : Z;
  firstPos : point;
  maxVisibleNotifications : Z
}.

(** [nextInsertPos]; a coordinate is [None] while the property is
    undefined. *)
Record insertPos := InsertPos { ix : option Z; iy : option Z }.

(** [calcDimensions] *)
Definition calcDimensions (c : config) (n : insertPos) : config * insertPos :=
  let totalHeight := (height c + padding c)%Z in
  let totalWidth := (width c + padding c)%Z in
  let firstPos :=
    Point (x (lowerRightCorner c) - totalWidth)
          (y (lowerRightCorner c) - totalHeight) in
  (Config (width c) (height c) (padding c) (animationSteps c)
          (lowerRightCorner c) totalHeight totalWidth firstPos
          (maxVisibleNotifications c),
   InsertPos (Some (x firstPos)) (Some (y firstPos))).

(** The module body, lines 52-59 and 180-192: the defaults, the lower
    right corner, [calcDimensions()], then the limit.  The limit is
    [maxVisible], which divides by the default total height. *)
Definition load (d : display) : config * insertPos :=
  let corner :=
    Point (x (bounds d) + x (workArea d) + workAreaSize_width d)
          (y (bounds d) + y (workArea d) + workAreaSize_height d) in
  let '(c, n) :=
    calcDimensions (Config 300 config_height config_padding 5 corner 0 0
                      (Point 0 0) 0)
                   (InsertPos None None) in
  (Config (width c) (height c) (padding c) (animationSteps c)
          (lowerRightCorner c) (totalHeight c) (totalWidth c) (firstPos c)
          (maxVisible (workAreaSize_height d)),
   n).

(** A custom configuration: a property that is absent or undefined is
    [None]. *)
Record custom := Custom {
  c_width : option Z;
  c_height : option Z;
  c_padding : option Z;
  c_animationSteps : option Z;
  c_lowerRightCorner : option point;
  c_maxVisibleNotifications : option Z
}.

(** [_.defaults(customConfig, config)]: the custom value where there is
    one, the current value elsewhere.  The derived properties are set
    by [calcDimensions] right after. *)
Definition defaults (cu : custom) (c : config) : config :=
  Config (default (width c) (c_width cu))
         (default (height c) (c_height cu))
         (default (padding c) (c_padding cu))
         (default (animationSteps c) (c_animationSteps cu))
         (default (lowerRightCorner c) (c_lowerRightCorner cu))
         (totalHeight c) (totalWidth c) (firstPos c)
         (default (maxVisibleNotifications c) (c_maxVisibleNotifications cu)).

(** [setConfig] *)
Definition setConfig (cu : custom) (st : config * insertPos)
  : config * insertPos :=
  calcDimensions (defaults cu st.1) st.2.

(** [nextInsertPos = {}] in [closeAll] *)
Definition closeAll_nextInsertPos : insertPos := InsertPos None None.

(** [calcInsertPos], for an active list of the given length *)
Definition calcInsertPos (c : config) (length : nat) (n : insertPos)
  : insertPos :=
  if (Z.of_nat length <? maxVisibleNotifications c)%Z
  then InsertPos (ix n)
         (Some (y (lowerRightCorner c) - totalHeight c * (Z.of_nat length + 1))%Z)
  else n.

(** [newY] in [moveNotificationAnimation(i, done)] *)
Definition newY (c : config) (i : Z) : Z :=
  (y (lowerRightCorner c) - totalHeight c * (i + 1))%Z.

(** [startPos >= activeNotifications] in [moveOneDown]: the array is
    converted to a number through its string, which is the empty string
    (hence 0) for the empty array and not a number for an array of
    window objects. *)
Definition ge_array (startPos : Z) (activeNotifications : list win) : bool :=
  match activeNotifications with
  | [] => (0 <=? startPos)%Z
  | _ :: _ => false
  end.

(** [moveOneDown]: the indices handed to [moveNotificationAnimation]
    ([notificationPosArray]), none when the promise resolves at once. *)
Definition moveOneDown (startPos : Z) (activeNotifications : list win)
  : list Z :=
  if ge_array startPos activeNotifications || (startPos =? -1)%Z then []
  else
    (fun k => (startPos + Z.of_nat k)%Z)
      <$> seq 0 (Z.to_nat (Z.of_nat (length activeNotifications) - startPos)).

(** Where [setPosition] puts a window during the animation: the exact
    target, or the floating point value
    [startY + curStep * ((newY - startY) / animationSteps)]. *)
Inductive ypos :=
| Exact (y : Z)
| Interpolated (startY newY animationSteps curStep : Z).

(** One run of [moveNotificationAnimation]: the step counter, whether
    [done] was called (and the interval cleared), and the calls of
    [setPosition(config.firstPos.x, _)] so far. *)
Record animation := Animation {
  curStep : Z;
  finished : bool;
  moves : list (Z * ypos)
}.

Definition start : animation := Animation 1 false [].

(** The interval callback. *)
Definition tick (c : config) (startY target : Z) (a : animation) : animation :=
  if finished a then a
  else if (curStep a =? animationSteps c)%Z
  then Animation (curStep a) true
         (moves a ++ [(x (firstPos c), Exact target)])
  else Animation (curStep a + 1) false
         (moves a ++ [(x (firstPos c),
                       Interpolated startY target (animationSteps c) (curStep a))]).

Definition ticks (c : config) (startY target : Z) (n : nat) : animation :=
  Nat.iter n (tick c startY target) start.

End Geometry.

(** ** The template path (index.js, lines 134-160) *)

Module Template.

(** [config.templatePath], [config.logging] and what [log] printed. *)
Record state := State {
  templatePath : val;
  logging : bool;
  printed : list string
}.

Definition log (msg : string) (s : state) : state :=
  if logging s then State (templatePath s) (logging s) (printed s ++ [msg])
  else s.

(** The double quote character, for the strings of the source that
    contain it. *)
Definition dquote : string := String (Ascii.ascii_of_nat 34) EmptyString.

(** [updateTemplatePath]; [file] is [path.join(__dirname,
    'notification.html')] and [found] tells whether [fs.statSync] finds
    it (it throws when it does not). *)
Definition updateTemplatePath (file : string) (found : bool) (s : state)
  : val * state :=
  let s :=
    if found then s
    else
      log "node-desktop-notification: To use a different template you need to correct the config.templatePath or simply adapt config.htmlTemplate"
        (log ("node-desktop-notification: Could not find template ("
              ++ dquote ++ file ++ dquote ++ ").") s) in
  let p := VStr ("file://" ++ file) in
  (p, State p (logging s) (printed s)).

(** [getTemplatePath] *)
Definition getTemplatePath (file : string) (found : bool) (s : state)
  : val * state :=
  match templatePath s with
  | VUndefined => updateTemplatePath file found s
  | p => (p, s)
  end.

(** [setTemplatePath] *)
Definition setTemplatePath (path : val) (s : state) : state :=
  State path (logging s) (printed s).

End Template.

(** ** The window's side: [setContents] and [reset] (preload.js) *)

Module Preload.

(** The two click listeners that [setContents] adds; each closes over
    the notification object it was called with. *)
Inductive listener :=
| CloseClicked (notificationObj : gmap string val)
    (* stopPropagation, then ipc.send('node-desktop-notification-close') *)
| ContainerClicked (notificationObj : gmap string val).
    (* ipc.send('node-desktop-notification-click') *)

(** What an element of the template carries. *)
Record element := Element {
  innerHTML : val;
  src : val;
  style : gmap string val;
  listeners : list listener
}.

(** The elements that the script looks up by id. *)
Record document := Document {
  container : element;
  image : element;
  title : element;
  message : element;
  close : element;
  played : list string      (* sounds started with [new Audio(_).play()] *)
}.

(** [setStyleOnDomElement]: every property of the style object is
    written over the element's style. *)
Definition setStyleOnDomElement (styleObj : gmap string val) (e : element)
  : element :=
  Element (innerHTML e) (src e) (styleObj ∪ style e) (listeners e).

Definition addEventListener (l : listener) (e : element) : element :=
  Element (innerHTML e) (src e) (style e) (listeners e ++ [l]).

(** [x || ''] *)
Definition or_empty (v : val) : val := if truthy v then v else VStr "".

(** The sound part of [setContents]: [None] when the TypeError raised
    in the [catch] block ([sound.replace] on a value that is no string)
    leaves the function; otherwise the sounds played so far. *)
Definition play_sound (sound : val) (played : list string)
  : option (list string) :=
  if truthy sound then
    match sound with
    | VStr s =>
        if String.prefix "file:" s || String.prefix "/" s
        then Some (played ++ [s])
        else Some played
    | _ => None
    end
  else Some played.

(** [setContents(event, notificationObj)] *)
Definition setContents (notificationObj : gmap string val) (d : document)
  : option document :=
  match play_sound (prop notificationObj "sound") (played d) with
  | None => None
  | Some played' =>
      let title' :=
        Element (or_empty (prop notificationObj "title")) (src (title d))
                (style (title d)) (listeners (title d)) in
      let message' :=
        Element (or_empty (prop notificationObj "text")) (src (message d))
                (style (message d)) (listeners (message d)) in
      let image' :=
        if truthy (prop notificationObj "image")
        then Element (innerHTML (image d)) (prop notificationObj "image")
               (style (image d)) (listeners (image d))
        else setStyleOnDomElement {[ "display" := VStr "none" ]} (image d) in
      Some (Document
              (addEventListener (ContainerClicked notificationObj) (container d))
              image' title' message'
              (addEventListener (CloseClicked notificationObj) (close d))
              played')
  end.

(** [cloneNode(true)] copies content, attributes and inline style, not
    the listeners. *)
Definition cloneNode (e : element) : element :=
  Element (innerHTML e) (src e) (style e) [].

(** [reset]: the container is replaced by a deep clone of itself, so
    every element of the page is a clone afterwards. *)
Definition reset (d : document) : document :=
  Document (cloneNode (container d)) (cloneNode (image d))
           (cloneNode (title d)) (cloneNode (message d))
           (cloneNode (close d)) (played d).

(** The ipc messages of one click. *)
Inductive message_t :=
| SendClose (notificationObj : gmap string val)
| SendClick (notificationObj : gmap string val).

Definition fire (l : listener) : message_t :=
  match l with
  | CloseClicked o => SendClose o
  | ContainerClicked o => SendClick o
  end.

(** A click on the close button: its listeners run and stop the
    propagation; with no listener on it the click bubbles to the
    container. *)
Definition click_close (d : document) : list message_t :=
  match listeners (close d) with
  | [] => fire <$> listeners (container d)
  | ls => fire <$> ls
  end.

(** A click elsewhere in the container. *)
Definition click_container (d : document) : list message_t :=
  fire <$> listeners (container d).

(** The messages the window receives from the main process. *)
Inductive received :=
| SetContents (notificationObj : gmap string val)
| Reset.

(** A failed [setContents] leaves the page as it was. *)
Definition receive (m : received) (d : document) : document :=
  match m with
  | SetContents o => default d (setContents o d)
  | Reset => reset d
  end.

Definition receive_all (ms : list received) (d : document) : document :=
  foldl (fun d m => receive m d) d ms.

End Preload.

(** ** The order of the requests *)

(** The objects of the accepted calls of [notify], in call order. *)
Definition submitted (es : list event) : list ref :=
  omap (fun e => match e with Notify [VObj r] => Some r | _ => None end) es.

(** The objects put on display, in the order of their timers. *)
Definition displayed (s : state) : list ref :=
  (fun p => notificationObj (snd p)) <$> timers s.

(** The object of the show task that waits for its window. *)
Definition awaited (s : state) : list ref :=
  omap (fun p => match p with AwaitWindow r _ _ => Some r | Resolved => None end)
       (promises s).

(** The objects of the show tasks in the animation queue. *)
Definition queued (s : state) : list ref :=
  omap (fun t => match t with Show r => Some r | Close _ _ => None end)
       (AnimationQueue.queue (animationQueue s)).

(** The requests the scheduler holds and has not yet put on display. *)
Definition waiting (s : state) : list ref :=
  awaited s ++ notificationQueue s ++ queued s.

(** The request and the window that a step puts on display: the
    arguments with which the callback of [getWindow().then] in
    [showNotification] runs. *)
Definition put_on_display (e : event) (s : state) : list (ref * win) :=
  match e with
  | WindowReady i =>
      match promises s !! i with
      | Some (AwaitWindow notification w _) => [(notification, w)]
      | _ => []
      end
  | _ => []
  end.

(** The requests put on display in the course of a run, with their
    windows, oldest first. *)
Fixpoint displays (es : list event) (s : state) : list (ref * win) :=
  match es with
  | [] => []
  | e :: es => put_on_display e s ++ displays es (step e s)
  end.

(** [s'] holds the waiting requests of [s], in some order, and has
    shown the same windows. *)
Definition same_waiting (s s' : state) : Prop :=
  waiting s' ≡ₚ waiting s ∧ shown s' = shown s.

(** Events that close nothing. *)
Definition closes_nothing (e : event) : bool :=
  match e with
  | Notify _ | WindowReady _ | TaskDone _ | IpcClick _ _ => true
  | CloseAll | Timeout _ | CallClose _ _ | IpcClose _ _ => false
  end.

(** The requests are lined up in call order: displayed, waiting for the
    window, in the overflow queue, in the animation queue; a request is
    in the overflow queue only when the active list is full. *)
Definition lined_up (es : list event) (s : state) : Prop :=
  submitted es = displayed s ++ awaited s ++ notificationQueue s ++ queued s
  ∧ (notificationQueue s ≠ [] →
     (maxVisibleNotifications (config s)
        ≤ Z.of_nat (length (activeNotifications s)))%Z ∧ awaited s = [])
  ∧ length (promises s) ≤ 1
  ∧ (AnimationQueue.running (animationQueue s) = false →
     promises s = [] ∧ AnimationQueue.queue (animationQueue s) = [])
  ∧ length (activeNotifications s) = length (timers s)
  ∧ forallb is_show (AnimationQueue.queue (animationQueue s)) = true.

(** The part of the state that [lined_up] reads. *)
Definition view (s : state) :=
  (config s, animationQueue s, promises s, activeNotifications s,
   notificationQueue s, timers s).

(** * Properties *)

(** ** The animation queue *)

Section QueueFacts.
Context {T : Type}.
Import AnimationQueue.

Implicit Types (w : world T) (e : event T) (es : list (event T)).

Lemma run_snoc es e w : run (es ++ [e]) w = step e (run es w).
Proof. unfold run. by rewrite foldl_app. Qed.

Lemma pushes_snoc es e :
  pushes (es ++ [e])
  = pushes es ++ match e with Push object => [object] | _ => [] end.
Proof. unfold pushes. rewrite omap_app. by destruct e. Qed.

Lemma delete_short (l : list T) i x :
  length l ≤ 1 → l !! i = Some x → delete i l = [].
Proof.
  destruct l as [|y [|z l]]; simpl; intros Hl Hi; try done; try lia.
  destruct i; [done | by destruct i].
Qed.

Lemma serial_step e w : serial w → serial (step e w).
Proof.
  intros [Hlen Hidle]. destruct w as [[q r] fl st lg]. simpl in *.
  destruct e as [object | i | i | ]; simpl.
  - unfold push; simpl. destruct r; simpl.
    + split; simpl; [done | intros [=]].
    + destruct (Hidle eq_refl) as [-> ->].
      split; simpl; [lia | intros [=]].
  - destruct (fl !! i) eqn:Hi; [| by split].
    rewrite (delete_short _ _ _ Hlen Hi).
    unfold fulfilled; simpl. destruct q as [|next rest]; simpl.
    + split; simpl; [lia | done].
    + split; simpl; [lia |]. intros ->. by destruct (Hidle eq_refl).
  - destruct (fl !! i) eqn:Hi; [| by split].
    rewrite (delete_short _ _ _ Hlen Hi). split; simpl; [lia |].
    intros ->. destruct (Hidle eq_refl) as [Hfl _]. by rewrite Hfl in Hi.
  - split; simpl; [done |]. intros ->. by destruct (Hidle eq_refl) as [-> _].
Qed.

Lemma serial_init : serial (@init T).
Proof. split; simpl; [lia | done]. Qed.

Lemma serial_run es w : serial w → serial (run es w).
Proof.
  induction es as [|e es IH] using rev_ind; [done |].
  intros Hw. rewrite run_snoc. by apply serial_step, IH.
Qed.

(** Order: what has started, followed by what waits, is what was
    pushed with the cleared objects left out. *)
Lemma fifo_run es :
  let w := run es init in
  (started w ++ queue (aq w)) `sublist_of` pushes es
  ∧ (if has_clear es then True
     else pushes es = started w ++ queue (aq w)).
Proof.
  induction es as [|e es IH] using rev_ind; [by split |].
  simpl in *. rewrite run_snoc, pushes_snoc.
  pose proof (serial_run es init serial_init) as [Hlen Hidle].
  destruct IH as [Hsub Heq].
  unfold has_clear in *. rewrite existsb_app. simpl.
  destruct (run es init) as [[q r] fl st lg]. simpl in *.
  destruct e as [object | i | i | ]; simpl.
  - unfold push; simpl. destruct r; simpl.
    + rewrite app_assoc. split; [by apply sublist_app |].
      rewrite orb_false_r. destruct (existsb _ es); [done | by rewrite Heq].
    + destruct (Hidle eq_refl) as [_ ->]. rewrite !app_nil_r in *.
      split; [by apply sublist_app |].
      rewrite orb_false_r. destruct (existsb _ es); [done | by rewrite Heq].
  - rewrite app_nil_r, orb_false_r.
    destruct (fl !! i); [| done].
    unfold fulfilled; simpl. destruct q as [|next rest]; simpl.
    + done.
    + by rewrite <- app_assoc.
  - rewrite app_nil_r, orb_false_r. by destruct (fl !! i).
  - rewrite !app_nil_r, orb_true_r. split; [| done].
    etrans; [| exact Hsub]. apply sublist_inserts_r. done.
Qed.

(** Claim C1: the AnimationQueue serializes tasks.  After any sequence
    of pushes, promise settlements and clears, at most one task is in
    flight; the tasks started so far, followed by the waiting ones, are
    in push order (exactly the pushed ones when nothing was cleared); a
    push while a task is running only appends, a push while idle starts
    the task at once. *)
Theorem animation_queue_serializes es (object : T) :
  let w := run es init in
  length (inflight w) ≤ 1
  ∧ (started w ++ queue (aq w)) `sublist_of` pushes es
  ∧ (if has_clear es then True
     else pushes es = started w ++ queue (aq w))
  ∧ (if running (aq w)
     then step (Push object) w
          = World (mk (queue (aq w) ++ [object]) true)
                  (inflight w) (started w) (logged w)
     else step (Push object) w
          = World (mk (queue (aq w)) true)
                  [object] (started w ++ [object]) (logged w)).
Proof.
  intros w.
  pose proof (serial_run es init serial_init) as [Hlen Hidle].
  pose proof (fifo_run es) as [Hsub Heq].
  fold w in Hlen, Hidle, Hsub, Heq.
  repeat split; try done.
  destruct w as [[q r] fl st lg]. simpl in *. unfold push; simpl.
  destruct r; simpl; [done |].
  by destruct (Hidle eq_refl) as [-> _].
Qed.

Lemma stalled_run es w :
  stalled w →
  let w' := run es w in
  stalled w' ∧ started w' = started w ∧ logged w' = logged w
  ∧ queue (aq w') = backlog (queue (aq w)) es.
Proof.
  intros Hw. induction es as [|e es IH] using rev_ind; [done |].
  simpl in *. rewrite run_snoc. unfold backlog in *. rewrite foldl_app.
  destruct IH as ([Hr Hfl] & Hst & Hlg & Hq).
  destruct (run es w) as [[q r] fl st lg]. simpl in *. subst.
  destruct e as [object | i | i | ]; simpl; by rewrite ?lookup_nil.
Qed.

(** Claim C2: when the promise of the running task rejects, the error
    is logged and the queue does not advance: nothing is dequeued,
    [running] stays set, and whatever happens later no task is started
    any more; later pushes are only appended to the pending list. *)
Theorem rejected_task_stalls_queue es i (object : T) later :
  let w := run es init in
  inflight w !! i = Some object →
  let w1 := step (Reject i) w in
  let w2 := run later w1 in
  logged w1 = S (logged w)
  ∧ queue (aq w1) = queue (aq w)
  ∧ started w1 = started w
  ∧ running (aq w2) = true
  ∧ inflight w2 = []
  ∧ started w2 = started w
  ∧ logged w2 = S (logged w)
  ∧ queue (aq w2) = backlog (queue (aq w)) later.
Proof.
  intros w Hi w1 w2.
  pose proof (serial_run es init serial_init) as [Hlen Hidle].
  fold w in Hlen, Hidle.
  assert (Hw1 : w1 = World (aq w) [] (started w) (S (logged w))).
  { unfold w1. simpl. rewrite Hi. by rewrite (delete_short _ _ _ Hlen Hi). }
  assert (Hst : stalled w1).
  { rewrite Hw1. split; [| done]. simpl.
    destruct (running (aq w)) eqn:Hr; [done |].
    destruct (Hidle eq_refl) as [Hfl _]. by rewrite Hfl in Hi. }
  destruct (stalled_run later w1 Hst) as ([Hr Hfl] & Hs & Hl & Hq).
  fold w2 in Hr, Hfl, Hs, Hl, Hq.
  rewrite Hw1 in Hs, Hl, Hq. simpl in *.
  rewrite Hw1. simpl. done.
Qed.

End QueueFacts.

(** Two tasks pushed; the first one fails; a third push, a stray
    settlement and a fourth push change nothing but the backlog. *)
Lemma rejected_task_stalls_queue_witness :
  let es := [AnimationQueue.Push 1; AnimationQueue.Push 2] in
  let later := [AnimationQueue.Push 3; AnimationQueue.Fulfil 0;
                AnimationQueue.Push 4] in
  let w := AnimationQueue.run es AnimationQueue.init in
  let w2 := AnimationQueue.run later (AnimationQueue.step (AnimationQueue.Reject 0) w) in
  AnimationQueue.inflight w !! 0 = Some 1
  ∧ AnimationQueue.started w2 = [1]
  ∧ AnimationQueue.queue (AnimationQueue.aq w2) = [2; 3; 4].
Proof.
  split; [reflexivity |].
  pose proof (rejected_task_stalls_queue
                [AnimationQueue.Push 1; AnimationQueue.Push 2] 0 1
                [AnimationQueue.Push 3; AnimationQueue.Fulfil 0;
                 AnimationQueue.Push 4] eq_refl) as H.
  simpl in H. destruct H as (_ & _ & _ & _ & _ & Hs & _ & Hq).
  split; [exact Hs | exact Hq].
Defined.

(** ** Basic facts about the scheduler state *)

(** [indexOf] and [splice] as JavaScript has them: a window that is not
    in the array has index -1, and [splice(-1, 1)] removes the last
    element. *)
Example indexOf_found : indexOf 7 [5; 7; 9; 7] = 1%Z.
Proof. reflexivity. Qed.

Example indexOf_missing : indexOf 4 [5; 7; 9] = (-1)%Z.
Proof. reflexivity. Qed.

Example splice1_inside : splice1 1 [5; 7; 9] = [5; 9].
Proof. reflexivity. Qed.

Example splice1_minus_one : splice1 (-1) [5; 7; 9] = [5; 7].
Proof. reflexivity. Qed.

Example splice1_minus_one_empty : splice1 (-1) [] = [].
Proof. reflexivity. Qed.

(** A display 1080 high has room for fourteen slots and is capped at
    seven; one 100 high has one slot; one 74 high has none. *)
Example maxVisible_1080 : maxVisible 1080 = 7%Z.
Proof. reflexivity. Qed.

Example maxVisible_100 : maxVisible 100 = 1%Z.
Proof. reflexivity. Qed.

Example maxVisible_74 : maxVisible 74 = 0%Z.
Proof. reflexivity. Qed.

Lemma run_app es1 es2 s : run (es1 ++ es2) s = run es2 (run es1 s).
Proof. unfold run. by rewrite foldl_app. Qed.

Lemma run_step es e s : run (es ++ [e]) s = step e (run es s).
Proof. by rewrite run_app. Qed.

Lemma get_field_set_eq r k v s : get_field r k (set_field r k v s) = v.
Proof.
  unfold get_field, get_obj, set_field, prop. simpl.
  by rewrite lookup_insert_eq; simpl; rewrite lookup_insert_eq.
Qed.

Lemma get_field_set_ne r k v r' k' s :
  r ≠ r' ∨ k ≠ k' →
  get_field r' k' (set_field r k v s) = get_field r' k' s.
Proof.
  intros Hne. unfold get_field, get_obj, set_field, prop. simpl.
  destruct (decide (r = r')) as [<- | Hr].
  - rewrite lookup_insert_eq. simpl.
    destruct Hne as [? | Hk]; [done |]. by rewrite lookup_insert_ne.
  - by rewrite lookup_insert_ne.
Qed.

(** Unfold the scheduler's functions down to record updates. *)
Ltac unfold_ops :=
  unfold closeNotificationSafely, ipc_close, ipc_click, animate,
    animate_close, closeFunc, checkForQueuedNotifications, push_show,
    animate_show, showNotification, getWindow, showNotification_then,
    setTimeout, clearTimeout, log, set_field, get_field, get_obj,
    AnimationQueue.push, AnimationQueue.fulfilled, AnimationQueue.clear in *.

Ltac split_cases :=
  repeat (simpl in *; try done; case_match; simplify_eq).

(** ** Ids *)

Lemma same_ids_refl s : same_ids s s.
Proof. done. Qed.

Lemma same_ids_trans s1 s2 s3 : same_ids s1 s2 → same_ids s2 s3 → same_ids s1 s3.
Proof. intros (? & ? & ?) (? & ? & ?). repeat split; congruence. Qed.

Lemma same_ids_emit o s : silent o → same_ids s (emit o s).
Proof.
  intros Ho. split; [done |]. split; [done |]. unfold returned_ids. simpl.
  rewrite omap_app. simpl. destruct o as [| | | | | | | | | | | |[]|]; simpl in *;
    try done; by rewrite app_nil_r.
Qed.

Lemma same_ids_fields s s' :
  config s' = config s → latestID s' = latestID s → trace s' = trace s →
  same_ids s s'.
Proof.
  intros H0 H1 H2. repeat split; try done. unfold returned_ids. by rewrite H2.
Qed.

(** Walk down a nest of updates [f (g (h s))], one update at a time;
    a [let] on a state is crossed without being substituted. *)
Ltac chain refl trans solver :=
  lazymatch goal with
  | |- _ ?s ?s => apply refl
  | |- ?R ?s (let x := ?v in @?body x) =>
      lazymatch type of v with
      | state =>
          apply (trans s v);
          [ chain refl trans solver
          | let y := fresh "s" in
            generalize v; intros y; cbv beta; chain refl trans solver ]
      | _ =>
          let g := eval cbv beta in (body v) in
          change (R s g); chain refl trans solver
      end
  | |- _ _ (if ?c then _ else _) =>
      destruct c eqn:?; chain refl trans solver
  | |- _ _ (match ?o with _ => _ end) =>
      destruct o eqn:?; chain refl trans solver
  | |- _ ?s (?f ?t) =>
      apply (trans s t);
      [ chain refl trans solver
      | let y := fresh "s" in generalize t; intros y; solve [solver] ]
  end.

Create HintDb ids.

Ltac ids_one :=
  first [ by apply same_ids_fields | by apply same_ids_emit | auto with ids ].
Ltac ids_chain := chain same_ids_refl same_ids_trans ids_one.

Lemma same_ids_showNotification r s p s1 :
  showNotification r s = (p, s1) → same_ids s s1.
Proof.
  unfold showNotification, getWindow. intros H. revert H.
  repeat case_match; intros [= <- <-]; simplify_eq; ids_chain.
Qed.

Lemma same_ids_animate_show r s : same_ids s (animate_show r s).
Proof.
  unfold animate_show. destruct (showNotification r s) as [p s1] eqn:E.
  apply same_ids_showNotification in E.
  eapply same_ids_trans; [exact E | ids_one].
Qed.
#[local] Hint Resolve same_ids_animate_show : ids.

Lemma same_ids_push_show r s : same_ids s (push_show r s).
Proof. unfold push_show, AnimationQueue.push. ids_chain. Qed.
#[local] Hint Resolve same_ids_push_show : ids.

Lemma same_ids_checkForQueuedNotifications s :
  same_ids s (checkForQueuedNotifications s).
Proof. unfold checkForQueuedNotifications. ids_chain. Qed.
#[local] Hint Resolve same_ids_checkForQueuedNotifications : ids.

Lemma same_ids_closeFunc c event s : same_ids s (closeFunc c event s).
Proof. unfold closeFunc, clearTimeout, set_field. ids_chain. Qed.
#[local] Hint Resolve same_ids_closeFunc : ids.

Lemma same_ids_animate_close c event s : same_ids s (animate_close c event s).
Proof. unfold animate_close. ids_chain. Qed.
#[local] Hint Resolve same_ids_animate_close : ids.

Lemma same_ids_closeNotificationSafely c reason s :
  same_ids s (closeNotificationSafely c reason s).
Proof.
  unfold closeNotificationSafely, AnimationQueue.push.
  destruct (AnimationQueue.running (animationQueue s)); ids_chain.
Qed.
#[local] Hint Resolve same_ids_closeNotificationSafely : ids.

Lemma same_ids_closeAll s : same_ids s (closeAll s).
Proof.
  unfold closeAll.
  assert (Hfold : ∀ l s0, same_ids s0 (foldl (fun s w => emit (WinClose w) s) s0 l)).
  { induction l as [|w l IH]; intros s0; simpl; [apply same_ids_refl |].
    eapply same_ids_trans; [| apply IH]. by apply same_ids_emit. }
  cbv zeta.
  eapply same_ids_trans; [| by apply same_ids_fields].
  eapply same_ids_trans; [| by apply same_ids_fields].
  eapply same_ids_trans; [| apply Hfold].
  eapply same_ids_trans; [| apply Hfold].
  by apply same_ids_fields.
Qed.

Lemma heap_push_show r s : heap (push_show r s) = heap s.
Proof. unfold_ops. split_cases. Qed.

(** [notify] on one object: the id is the counter's value, the counter
    moves on by one and a show task is pushed. *)
Lemma notify_object r s :
  notify [VObj r] s
  = (Return (VNum (latestID s)),
     push_show r (set_latestID (latestID s + 1)
                    (set_field r "id" (VNum (latestID s)) s))).
Proof.
  unfold notify. simpl. f_equal. f_equal.
  unfold get_field, get_obj. rewrite heap_push_show. simpl.
  unfold prop. rewrite lookup_insert_eq. simpl. by rewrite lookup_insert_eq.
Qed.

Lemma step_valid_call r s :
  latestID (step (Notify [VObj r]) s) = (latestID s + 1)%Z
  ∧ returned_ids (step (Notify [VObj r]) s) = returned_ids s ++ [latestID s].
Proof.
  unfold step. rewrite notify_object.
  set (s1 := set_latestID _ _).
  destruct (same_ids_push_show r s1) as (_ & Hid & Hret).
  split.
  - change (latestID (push_show r s1) = (latestID s + 1)%Z). by rewrite Hid.
  - unfold returned_ids in *.
    change (trace (emit (Completed (VNum (latestID s))) (push_show r s1)))
      with (trace (push_show r s1) ++ [Completed (VNum (latestID s))]).
    rewrite omap_app, Hret. done.
Qed.

Lemma same_ids_showNotification_then r w s :
  same_ids s (showNotification_then r w s).
Proof. unfold showNotification_then, setTimeout. ids_chain. Qed.
#[local] Hint Resolve same_ids_showNotification_then : ids.

Lemma step_same_ids e s : is_valid_call e = false → same_ids s (step e s).
Proof.
  destruct e as [args | | i | i | t | k reason | w r | w r];
    intros Hv; unfold step.
  - destruct args as [|v [|v' args]]; simpl.
    + unfold log. ids_chain.
    + destruct v; simpl in *; try done; unfold log; ids_chain.
    + unfold log. ids_chain.
  - apply same_ids_closeAll.
  - ids_chain.
  - unfold AnimationQueue.fulfilled, animate. ids_chain.
  - ids_chain.
  - ids_chain.
  - unfold ipc_close. ids_chain.
  - unfold ipc_click. ids_chain.
Qed.

Lemma ids_run h hp es :
  let s := run es (init h hp) in
  latestID s = Z.of_nat (valid_calls es)
  ∧ returned_ids s = Z.of_nat <$> seq 0 (valid_calls es).
Proof.
  induction es as [|e es IH] using rev_ind; [done |].
  simpl in *. rewrite run_step. destruct IH as [Hid Hret].
  unfold valid_calls in *. rewrite List.filter_app, length_app. simpl.
  destruct (is_valid_call e) eqn:Hv.
  - destruct e as [[|[] [|]]| | | | | | |]; try done.
    destruct (step_valid_call r (run es (init h hp))) as [H1 H2].
    rewrite H1, H2, Hid, Hret. cbn [length]. split; [lia |].
    by rewrite seq_app, fmap_app.
  - simpl. rewrite Nat.add_0_r.
    destruct (step_same_ids e (run es (init h hp)) Hv) as (_ & H1 & H2).
    by rewrite H1, H2.
Qed.

(** Three calls in a row, the second one malformed. *)
Example notify_three_calls :
  returned_ids (run [Notify [VObj 0]; Notify [VObj 1; VObj 2]; Notify [VObj 0]]
                  (init 1080 ∅)) = [0%Z; 1%Z]
  ∧ get_field 0 "id"
      (run [Notify [VObj 0]; Notify [VObj 1; VObj 2]; Notify [VObj 0]]
         (init 1080 ∅)) = VNum 1.
Proof. by vm_compute. Qed.

(** Claim C3: over any run of the scheduler the ids that [notify]
    returned for its calls with one object are 0, 1, 2, ... in call
    order (integers, strictly increasing from 0, none used twice); and
    a call returns the counter's value at once: the active list and the
    windows shown are as before the call, the show task being only
    pushed. *)
Theorem notify_returns_fresh_increasing_ids h hp es r :
  let s := run es (init h hp) in
  returned_ids s = Z.of_nat <$> seq 0 (valid_calls es)
  ∧ (notify [VObj r] s).1 = Return (VNum (Z.of_nat (valid_calls es)))
  ∧ latestID (notify [VObj r] s).2 = (Z.of_nat (valid_calls es) + 1)%Z
  ∧ activeNotifications (notify [VObj r] s).2 = activeNotifications s
  ∧ shown (notify [VObj r] s).2 = shown s.
Proof.
  intros s. destruct (ids_run h hp es) as [Hid Hret]. fold s in Hid, Hret.
  rewrite notify_object. cbn [fst snd]. rewrite <- Hid.
  set (s1 := set_latestID _ _).
  destruct (same_ids_push_show r s1) as (_ & H1 & _).
  split; [exact Hret |]. split; [done |].
  split; [by rewrite H1 |].
  split.
  - subst s1. unfold_ops. split_cases.
  - subst s1. unfold shown. unfold_ops.
    split_cases; rewrite ?omap_app; simpl; by rewrite ?app_nil_r.
Qed.

Lemma config_step e s : config (step e s) = config s.
Proof.
  destruct (is_valid_call e) eqn:Hv.
  - destruct e as [[|[] [|]]| | | | | | |]; try done.
    unfold step. rewrite notify_object.
    set (s1 := set_latestID _ _).
    destruct (same_ids_push_show r s1) as (Hc & _ & _).
    change (config (push_show r s1) = config s). by rewrite Hc.
  - by destruct (step_same_ids e s Hv) as (Hc & _ & _).
Qed.

Lemma config_run es s : config (run es s) = config s.
Proof.
  induction es as [|e es IH] using rev_ind; [done |].
  by rewrite run_step, config_step.
Qed.

(** ** Malformed calls *)

(** The part of claim C4 that holds: a call whose argument count is not
    one, or whose argument has another type than object, returns
    [undefined] and only adds a line to the log. *)
Lemma notify_malformed_logs arguments s :
  match arguments with
  | [v] => typeof v ≠ "object"
  | _ => True
  end →
  notify arguments s
  = (Return VUndefined,
     emit (Log "node-desktop-notification: ERROR notify() only accepts a single object with notification parameters.") s)
  ∨ logging (config s) = false ∧ notify arguments s = (Return VUndefined, s).
Proof.
  intros Hbad. unfold notify, log.
  destruct arguments as [|v [|v' rest]];
    [ | destruct v; simpl in *; try done | ];
    destruct (logging (config s)); auto.
Qed.

(** Claim C4, where it fails: [typeof null] is "object", so [notify(null)]
    passes the guard and the write [notification.id = latestID] throws a
    TypeError out of [notify]; the state is untouched and no diagnostic
    is logged. *)
Theorem notify_null_throws (s : state) :
  typeof VNull = "object"
  ∧ notify [VNull] s = (Throw, s)
  ∧ step (Notify [VNull]) s = emit Raised s.
Proof. done. Qed.

(** ** Geometry *)

Lemma maxVisible_min h :
  maxVisible h = Z.min 7 (h / (config_height + config_padding))%Z.
Proof.
  unfold maxVisible, totalHeight.
  destruct (Z.gtb_spec (h / (config_height + config_padding)) 7); lia.
Qed.

(** Claim C9 as amended: the limit is the floor of the work area height
    over slot height plus padding, capped at 7; nothing clamps it from
    below; whenever it is zero or negative the admission test of
    [showNotification] fails, so the show task resolves with the request
    appended to the overflow queue and no window taken. *)
Theorem maxVisible_capped_and_overflow_when_nonpositive h hp es r :
  let s := run es (init h hp) in
  let quotient := (h / (config_height + config_padding))%Z in
  maxVisibleNotifications (config s) = Z.min 7 quotient
  ∧ (maxVisibleNotifications (config s) ≤ 7)%Z
  ∧ if (quotient <=? 0)%Z
    then maxVisibleNotifications (config s) = quotient
         ∧ showNotification r s
           = (Resolved,
              set_notificationQueue (notificationQueue s ++ [r]) s)
    else True.
Proof.
  intros s quotient. unfold s. rewrite config_run. simpl.
  rewrite maxVisible_min. fold quotient.
  split; [done |]. split; [lia |].
  destruct (Z.leb_spec quotient 0) as [Hq |]; [| done].
  split; [lia |].
  unfold showNotification. rewrite config_run. simpl.
  rewrite maxVisible_min. fold quotient.
  destruct (Z.ltb_spec (Z.of_nat (length (activeNotifications (run es (init h hp)))))
              (Z.min 7 quotient)); [lia | done].
Qed.

(** Claim C9 as stated fails on a negative quotient: the limit stays
    negative instead of becoming zero. *)
Lemma maxVisible_negative_not_clamped :
  ((-1) / (config_height + config_padding) ≤ 0)%Z
  ∧ maxVisible (-1) = (-1)%Z
  ∧ maxVisible (-1) ≠ 0%Z.
Proof. by vm_compute. Qed.

(** ** closeAll *)

Lemma foldl_WinClose l s :
  let s' := foldl (fun s w => emit (WinClose w) s) s l in
  s' = State (heap s) (config s) (latestID s) (animationQueue s) (promises s)
         (activeNotifications s) (inactiveWindows s) (notificationQueue s)
         (nextWindow s) (timers s) (nextTimer s) (handles s)
         (trace s ++ (WinClose <$> l)).
Proof.
  revert s. induction l as [|w l IH]; intros s; simpl.
  - rewrite app_nil_r. by destruct s.
  - rewrite IH. simpl. by rewrite <- app_assoc.
Qed.

Lemma omap_WinClose (l : list nat) :
  omap (fun o => match o with WinClose w => Some w | _ => None end)
       (WinClose <$> l) = l.
Proof. induction l as [|w l IH]; simpl; [done | by f_equal]. Qed.

Lemma closeAll_fields (s : state) :
  activeNotifications (closeAll s) = []
  ∧ AnimationQueue.running (animationQueue (closeAll s))
    = AnimationQueue.running (animationQueue s)
  ∧ promises (closeAll s) = promises s.
Proof. unfold closeAll. cbv zeta. by rewrite !foldl_WinClose. Qed.

(** Claim C8 as amended: after [closeAll()] the animation queue has no
    pending task, [close()] was called on every active and every pooled
    window, and the active list and the pool are empty; the overflow
    queue is not touched, and neither are the running flag and the
    promise of a task in flight. *)
Theorem closeAll_resets_windows_only (s : state) :
  let s' := closeAll s in
  AnimationQueue.queue (animationQueue s') = []
  ∧ destroyed s' = destroyed s ++ activeNotifications s ++ inactiveWindows s
  ∧ activeNotifications s' = []
  ∧ inactiveWindows s' = []
  ∧ notificationQueue s' = notificationQueue s
  ∧ AnimationQueue.running (animationQueue s')
    = AnimationQueue.running (animationQueue s)
  ∧ promises s' = promises s.
Proof.
  unfold closeAll. cbv zeta. rewrite !foldl_WinClose. simpl.
  repeat split; try done.
  unfold destroyed. simpl. rewrite !omap_app, <- app_assoc.
  by rewrite !omap_WinClose.
Qed.

(** ** Capacity *)

Lemma quiet_refl s : quiet s s.
Proof. by intros ?. Qed.

Lemma quiet_trans s1 s2 s3 : quiet s1 s2 → quiet s2 s3 → quiet s1 s3.
Proof.
  intros H12 H23 Hr. destruct (H12 Hr) as (? & ? & Hr2 & ?).
  destruct (H23 Hr2) as (? & ? & ? & ?).
  repeat split; try congruence. lia.
Qed.

Lemma quiet_fields s s' :
  config s' = config s → promises s' = promises s →
  AnimationQueue.running (animationQueue s')
  = AnimationQueue.running (animationQueue s) →
  length (activeNotifications s') ≤ length (activeNotifications s) →
  quiet s s'.
Proof. intros ? ? ? ? ?. repeat split; congruence. Qed.

Lemma splice1_length pos l : length (splice1 pos l) ≤ length l.
Proof.
  unfold splice1. generalize (Z.to_nat
    (if (pos <? 0)%Z then Z.max (Z.of_nat (length l) + pos) 0
     else Z.min pos (Z.of_nat (length l)))) as i.
  induction l as [|x l IH]; intros [|i]; simpl; try lia.
  specialize (IH i). lia.
Qed.

Create HintDb quiet.

Ltac quiet_one :=
  first [ by apply quiet_fields
        | apply quiet_fields; simpl; solve [done | apply splice1_length]
        | auto with quiet ].
Ltac quiet_chain := chain quiet_refl quiet_trans quiet_one.

Lemma quiet_push_show r s : quiet s (push_show r s).
Proof.
  intros Hr. unfold push_show, AnimationQueue.push. rewrite Hr. by simpl.
Qed.
#[local] Hint Resolve quiet_push_show : quiet.

Lemma quiet_checkForQueuedNotifications s :
  quiet s (checkForQueuedNotifications s).
Proof. unfold checkForQueuedNotifications. quiet_chain. Qed.
#[local] Hint Resolve quiet_checkForQueuedNotifications : quiet.

Lemma quiet_closeFunc c event s : quiet s (closeFunc c event s).
Proof. unfold closeFunc, clearTimeout, set_field. quiet_chain. Qed.

Lemma capacity_inv_fields s s' :
  config s' = config s → promises s' = promises s →
  AnimationQueue.running (animationQueue s')
  = AnimationQueue.running (animationQueue s) →
  length (activeNotifications s') ≤ length (activeNotifications s) →
  capacity_inv s → capacity_inv s'.
Proof.
  unfold capacity_inv. intros -> -> -> Hlen (H1 & H2 & H3 & H4).
  split_and!; try done; [| lia].
  intros r w f Hin. specialize (H3 r w f Hin). lia.
Qed.

Lemma showNotification_shape r s p s1 :
  showNotification r s = (p, s1) →
  config s1 = config s ∧ promises s1 = promises s
  ∧ animationQueue s1 = animationQueue s
  ∧ activeNotifications s1 = activeNotifications s
  ∧ (p = Resolved
     ∨ (Z.of_nat (length (activeNotifications s))
          < maxVisibleNotifications (config s))%Z).
Proof.
  unfold showNotification, getWindow. intros H. revert H.
  destruct (Z.ltb_spec (Z.of_nat (length (activeNotifications s)))
              (maxVisibleNotifications (config s)));
    repeat case_match; intros [= <- <-]; simplify_eq; simpl; auto 10.
Qed.

(** Starting a task on a running queue with nothing in flight. *)
Lemma capacity_inv_animate o s :
  AnimationQueue.running (animationQueue s) = true →
  promises s = [] →
  (Z.of_nat (length (activeNotifications s))
     ≤ Z.max 0 (maxVisibleNotifications (config s)))%Z →
  capacity_inv (animate o s).
Proof.
  intros Hr Hp Hlen. destruct o as [[r | c event] |]; simpl.
  - unfold animate_show. destruct (showNotification r s) as [p s1] eqn:E.
    apply showNotification_shape in E as (Hc & Hp1 & Haq & Hact & Hadm).
    unfold capacity_inv. simpl. rewrite Hc, Hp1, Hp, Haq, Hact, Hr. simpl.
    split_and!; try done.
    intros r' w f Hin. apply list_elem_of_singleton in Hin.
    destruct Hadm as [-> | Hadm]; [done | exact Hadm].
  - unfold animate_close.
    destruct (quiet_closeFunc c event s Hr) as (Hc & Hp1 & Hr1 & Hact).
    unfold capacity_inv. simpl. rewrite Hc, Hp1, Hp, Hr1. simpl.
    split_and!; try done; [| lia].
    intros r' w f Hin. by apply list_elem_of_singleton in Hin.
  - unfold capacity_inv. rewrite Hp, Hr. simpl.
    split_and!; try done; [lia |].
    intros r' w f Hin. by apply elem_of_nil in Hin.
Qed.

Lemma capacity_inv_push t s :
  capacity_inv s →
  let '(q, o) := AnimationQueue.push t (animationQueue s) in
  capacity_inv (animate o (set_animationQueue q s)).
Proof.
  intros Hinv. pose proof Hinv as (H1 & H2 & H3 & H4).
  unfold AnimationQueue.push.
  destruct (AnimationQueue.running (animationQueue s)) eqn:Hr.
  - simpl. revert Hinv. apply capacity_inv_fields; simpl; done.
  - apply capacity_inv_animate; simpl; auto.
Qed.

Lemma capacity_inv_push_show r s : capacity_inv s → capacity_inv (push_show r s).
Proof.
  intros Hinv. pose proof (capacity_inv_push (Show r) s Hinv) as H.
  unfold push_show, AnimationQueue.push in *.
  by destruct (AnimationQueue.running (animationQueue s)).
Qed.

Lemma capacity_inv_closeNotificationSafely c reason s :
  capacity_inv s → capacity_inv (closeNotificationSafely c reason s).
Proof.
  intros Hinv. unfold closeNotificationSafely.
  set (reason' := match reason with VUndefined => _ | _ => _ end).
  pose proof (capacity_inv_push (Close c reason') s Hinv) as H.
  unfold AnimationQueue.push in *.
  by destruct (AnimationQueue.running (animationQueue s)).
Qed.

Lemma showNotification_then_fields r w s :
  let s' := showNotification_then r w s in
  config s' = config s ∧ promises s' = promises s
  ∧ animationQueue s' = animationQueue s
  ∧ activeNotifications s' = activeNotifications s ++ [w].
Proof. unfold showNotification_then, setTimeout. by repeat case_match. Qed.

Lemma capacity_inv_step e s : capacity_inv s → capacity_inv (step e s).
Proof.
  intros Hinv. pose proof Hinv as (H1 & H2 & H3 & H4).
  destruct e as [args | | i | i | t | k reason | w r | w r]; unfold step.
  - destruct (notify args s) as [c s1] eqn:E.
    assert (capacity_inv s1) as Hs1.
    { unfold notify, log in E.
      repeat case_match; simplify_eq; try done;
        try (revert Hinv; by apply capacity_inv_fields).
      apply capacity_inv_push_show. revert Hinv.
      by apply capacity_inv_fields. }
    destruct c; revert Hs1; by apply capacity_inv_fields.
  - destruct (closeAll_fields s) as (Ha & Hr & Hp).
    pose proof (same_ids_closeAll s) as (Hc & _ & _).
    unfold capacity_inv. rewrite Hc, Hp, Hr, Ha. simpl.
    split_and!; try done; [| lia].
    intros r w f Hin. specialize (H3 r w f Hin). lia.
  - destruct (promises s !! i) as [[r w fresh|]|] eqn:Hi; try done.
    assert (Z.of_nat (length (activeNotifications s))
            < maxVisibleNotifications (config s))%Z as Hadm.
    { apply (H3 r w fresh). by eapply list_elem_of_lookup_2. }
    assert (promises s = [AwaitWindow r w fresh] ∧ i = 0) as [Hp ->].
    { destruct (promises s) as [|p [|p' l]]; simpl in *; try done; try lia.
      destruct i; simpl in *; [by simplify_eq | done]. }
    assert (AnimationQueue.running (animationQueue s) = true) as Hr.
    { destruct (AnimationQueue.running (animationQueue s)); [done |].
      rewrite (H2 eq_refl) in Hp. done. }
    set (s0 := if fresh then _ else s).
    assert (config s0 = config s ∧ promises s0 = promises s
            ∧ animationQueue s0 = animationQueue s
            ∧ activeNotifications s0 = activeNotifications s)
      as (Hc0 & Hp0 & Hq0 & Ha0) by (by destruct fresh).
    destruct (showNotification_then_fields r w s0) as (Hc1 & Hp1 & Hq1 & Ha1).
    revert Hc1 Hp1 Hq1 Ha1. generalize (showNotification_then r w s0).
    intros s1 Hc1 Hp1 Hq1 Ha1. unfold capacity_inv. simpl.
    rewrite Hc1, Hp1, Hq1, Ha1, Hc0, Hp0, Hq0, Ha0, Hp, Hr, length_app. simpl.
    split_and!; try done; try lia.
    intros r' w' f' Hin. apply list_elem_of_singleton in Hin. done.
  - destruct (promises s !! i) as [[r w fresh|]|] eqn:Hi; try done.
    assert (promises s = [Resolved] ∧ i = 0) as [Hp ->].
    { destruct (promises s) as [|p [|p' l]]; simpl in *; try done; try lia.
      destruct i; simpl in *; [by simplify_eq | done]. }
    assert (AnimationQueue.running (animationQueue s) = true) as Hr.
    { destruct (AnimationQueue.running (animationQueue s)); [done |].
      rewrite (H2 eq_refl) in Hp. done. }
    unfold AnimationQueue.fulfilled. rewrite Hp. simpl.
    destruct (AnimationQueue.queue (animationQueue s)) as [|next rest].
    + unfold capacity_inv. simpl. split_and!; try done; [lia |].
      intros r w f Hin. by apply elem_of_nil in Hin.
    + apply capacity_inv_animate; simpl; done.
  - destruct (list_find _ _) as [[? [? c]]|]; [| done].
    apply capacity_inv_closeNotificationSafely. revert Hinv.
    by apply capacity_inv_fields.
  - destruct (handles s !! k); [| done].
    by apply capacity_inv_closeNotificationSafely.
  - destruct (w <? nextWindow s); [| done].
    by apply capacity_inv_closeNotificationSafely.
  - destruct (w <? nextWindow s); [| done].
    unfold ipc_click. repeat case_match; revert Hinv;
      by apply capacity_inv_fields.
Qed.

Lemma maxVisible_nonneg h : (0 ≤ h)%Z → (0 ≤ maxVisible h)%Z.
Proof.
  intros Hh. rewrite maxVisible_min.
  assert (0 ≤ h / (config_height + config_padding))%Z; [| lia].
  apply Z.div_pos; [done | by vm_compute].
Qed.

Lemma capacity_inv_run h hp es : capacity_inv (run es (init h hp)).
Proof.
  induction es as [|e es IH] using rev_ind.
  - unfold capacity_inv. split_and!; try done.
    + cbn. lia.
    + intros r w f Hin. by apply elem_of_nil in Hin.
    + apply Z.le_max_l.
  - rewrite run_step. by apply capacity_inv_step.
Qed.

(** Claim C5, as the code has it.  After any sequence of calls, timers,
    ipc messages and promise reactions, on a display of any height, the
    active list is no longer than [maxVisibleNotifications], or empty
    when that limit is negative.  A show task takes a window only when
    the list is strictly shorter than the limit, and otherwise resolves
    with the request appended to the overflow queue and nothing else
    changed; the step that puts a window on the active list runs only
    for a task admitted that way, with the list still below the
    limit. *)
Theorem active_never_exceeds_maxVisible h hp es r i :
  let s := run es (init h hp) in
  let limit := maxVisibleNotifications (config s) in
  let n := Z.of_nat (length (activeNotifications s)) in
  (n ≤ Z.max 0 limit)%Z
  ∧ (if (n <? limit)%Z
     then ∃ w fresh,
         (showNotification r s).1 = AwaitWindow r w fresh
         ∧ notificationQueue (showNotification r s).2 = notificationQueue s
         ∧ activeNotifications (showNotification r s).2 = activeNotifications s
     else showNotification r s
          = (Resolved, set_notificationQueue (notificationQueue s ++ [r]) s))
  ∧ match promises s !! i with
    | Some (AwaitWindow _ w _) =>
        (n < limit)%Z
        ∧ activeNotifications (step (WindowReady i) s)
          = activeNotifications s ++ [w]
    | _ => activeNotifications (step (WindowReady i) s) = activeNotifications s
    end.
Proof.
  intros s limit n.
  destruct (capacity_inv_run h hp es) as (H1 & H2 & H3 & H4).
  fold s in H1, H2, H3, H4. fold limit in H3, H4. fold n in H3, H4.
  split; [exact H4 |]. split.
  - unfold showNotification, getWindow. fold limit n.
    destruct (n <? limit)%Z; [| done].
    destruct (last (inactiveWindows s)); simpl; eauto.
  - unfold step. destruct (promises s !! i) as [[r' w fresh|]|] eqn:Hi; try done.
    split; [apply (H3 r' w fresh); by eapply list_elem_of_lookup_2 |].
    set (s0 := if fresh then _ else s).
    destruct (showNotification_then_fields r' w s0) as (_ & _ & _ & Ha1).
    revert Ha1. generalize (showNotification_then r' w s0). intros s1 Ha1.
    simpl. rewrite Ha1. subst s0. by destruct fresh.
Qed.

(** A display 150 high has two slots: of five requests two are shown and
    three wait in the overflow queue. *)
Example two_slots_five_requests :
  let es := [Notify [VObj 0]; WindowReady 0; TaskDone 0;
             Notify [VObj 1]; WindowReady 0; TaskDone 0;
             Notify [VObj 2]; TaskDone 0; Notify [VObj 3]; TaskDone 0;
             Notify [VObj 4]] in
  let s := run es (init 150 ∅) in
  activeNotifications s = [0; 1]
  ∧ maxVisibleNotifications (config s) = 2%Z
  ∧ notificationQueue s = [2; 3; 4].
Proof. by vm_compute. Qed.

(** Claim C5 as stated fails where the limit is negative.  On a work
    area of height -1 the limit is -1; a request is routed to the
    overflow queue, the active list stays empty, and its length, 0,
    exceeds the limit. *)
Lemma active_exceeds_negative_maxVisible :
  let s := run [Notify [VObj 0]; TaskDone 0] (init (-1) ∅) in
  maxVisibleNotifications (config s) = (-1)%Z
  ∧ activeNotifications s = []
  ∧ notificationQueue s = [0]
  ∧ ¬ (Z.of_nat (length (activeNotifications s))
         ≤ maxVisibleNotifications (config s))%Z.
Proof. vm_compute. by split_and!. Qed.

(** Claim C8 as stated fails in its own scenario (two active, three
    waiting): after [closeAll] the three are still in the overflow
    queue, and the first of them is shown once a later notification has
    closed. *)
Lemma closeAll_keeps_overflow_queue :
  let s := run [Notify [VObj 0]; WindowReady 0; TaskDone 0;
                Notify [VObj 1]; WindowReady 0; TaskDone 0;
                Notify [VObj 2]; TaskDone 0; Notify [VObj 3]; TaskDone 0;
                Notify [VObj 4]; TaskDone 0] (init 150 ∅) in
  let later := run [Notify [VObj 5]; WindowReady 0; TaskDone 0;
                    Timeout 2; TaskDone 0; WindowReady 0] (closeAll s) in
  activeNotifications s = [0; 1]
  ∧ notificationQueue s = [2; 3; 4]
  ∧ notificationQueue (closeAll s) ≠ []
  ∧ notificationQueue (closeAll s) = [2; 3; 4]
  ∧ notificationObj <$> (snd <$> timers later) = [0; 1; 2].
Proof. by vm_compute. Qed.

(** ** The closed flag *)

Lemma preserves_refl r s : preserves r s s.
Proof. by split. Qed.

Lemma preserves_trans r s1 s2 s3 :
  preserves r s1 s2 → preserves r s2 s3 → preserves r s1 s3.
Proof.
  intros [Hf1 Hc1] [Hf2 Hc2]. split.
  - intros r' k Hid Hcl. by rewrite Hf2, Hf1.
  - intros H1. destruct (Hc1 H1) as [H2 Ho1]. destruct (Hc2 H2) as [H3 Ho2].
    split; [done | congruence].
Qed.

Lemma preserves_fields r s s' :
  heap s' = heap s → trace s' = trace s → preserves r s s'.
Proof.
  intros Hh Ht. unfold preserves, is_closed, onClose_calls, get_field, get_obj.
  by rewrite Hh, Ht.
Qed.

Lemma preserves_emit r o s :
  match o with OnClose r' _ _ => r' ≠ r | _ => True end →
  preserves r s (emit o s).
Proof.
  intros Ho. split; [done |]. intros Hc. split; [done |].
  unfold onClose_calls. simpl. rewrite omap_app. simpl.
  destruct o; simpl; rewrite ?app_nil_r; try done.
  apply Nat.eqb_neq in Ho. by rewrite Ho, app_nil_r.
Qed.

Lemma preserves_set_id r r' v s : preserves r s (set_field r' "id" v s).
Proof.
  split.
  - intros r0 k Hid Hcl. apply get_field_set_ne. auto.
  - unfold is_closed. rewrite get_field_set_ne by auto. done.
Qed.

Lemma preserves_set_closed r r' s :
  preserves r s (set_field r' "closed" (VBool true) s).
Proof.
  split.
  - intros r0 k Hid Hcl. apply get_field_set_ne. auto.
  - unfold is_closed. intros Hc. split; [| done].
    destruct (decide (r' = r)) as [-> | Hne].
    + by rewrite get_field_set_eq.
    + by rewrite get_field_set_ne by auto.
Qed.

Create HintDb closed.
#[local] Hint Resolve preserves_set_id preserves_set_closed : closed.

Ltac closed_one :=
  first [ by apply preserves_fields
        | by apply preserves_emit
        | auto with closed ].
Ltac closed_chain :=
  lazymatch goal with
  | |- preserves ?r _ _ =>
      chain (preserves_refl r) (preserves_trans r) closed_one
  end.

Lemma preserves_showNotification r0 r s p s1 :
  showNotification r s = (p, s1) → preserves r0 s s1.
Proof.
  unfold showNotification, getWindow. intros H. revert H.
  repeat case_match; intros [= <- <-]; simplify_eq; closed_chain.
Qed.

Lemma preserves_animate_show r0 r s : preserves r0 s (animate_show r s).
Proof.
  unfold animate_show. destruct (showNotification r s) as [p s1] eqn:E.
  apply (preserves_showNotification r0) in E.
  eapply preserves_trans; [exact E | closed_one].
Qed.
#[local] Hint Resolve preserves_animate_show : closed.

Lemma preserves_push_show r0 r s : preserves r0 s (push_show r s).
Proof. unfold push_show, AnimationQueue.push. closed_chain. Qed.
#[local] Hint Resolve preserves_push_show : closed.

Lemma preserves_checkForQueuedNotifications r0 s :
  preserves r0 s (checkForQueuedNotifications s).
Proof. unfold checkForQueuedNotifications. closed_chain. Qed.
#[local] Hint Resolve preserves_checkForQueuedNotifications : closed.

(** The close function on an object that is already closed. *)
Lemma closeFunc_closed c event s :
  is_closed (notificationObj c) s = true → closeFunc c event s = s.
Proof. unfold closeFunc, is_closed. cbv zeta. by intros ->. Qed.

Lemma preserves_closeFunc r0 c event s : preserves r0 s (closeFunc c event s).
Proof.
  destruct (decide (notificationObj c = r0)) as [Heq | Hne].
  - split.
    + unfold closeFunc, clearTimeout.
      assert (preserves (S r0) s (closeFunc c event s)) as [Hf _]; [| exact Hf].
      assert (notificationObj c ≠ S r0) by lia.
      unfold closeFunc, clearTimeout. closed_chain.
    + intros Hc. rewrite closeFunc_closed by (by rewrite Heq). done.
  - unfold closeFunc, clearTimeout. closed_chain.
Qed.
#[local] Hint Resolve preserves_closeFunc : closed.

Lemma preserves_animate_close r0 c event s :
  preserves r0 s (animate_close c event s).
Proof. unfold animate_close. closed_chain. Qed.
#[local] Hint Resolve preserves_animate_close : closed.

Lemma preserves_closeNotificationSafely r0 c reason s :
  preserves r0 s (closeNotificationSafely c reason s).
Proof.
  unfold closeNotificationSafely, AnimationQueue.push.
  destruct (AnimationQueue.running (animationQueue s)); closed_chain.
Qed.
#[local] Hint Resolve preserves_closeNotificationSafely : closed.

Lemma preserves_showNotification_then r0 r w s :
  preserves r0 s (showNotification_then r w s).
Proof. unfold showNotification_then, setTimeout. closed_chain. Qed.
#[local] Hint Resolve preserves_showNotification_then : closed.

Lemma preserves_closeAll r0 s : preserves r0 s (closeAll s).
Proof.
  unfold closeAll. cbv zeta. rewrite !foldl_WinClose. simpl.
  split; [done |]. intros Hc. split; [done |].
  unfold onClose_calls. simpl. rewrite !omap_app.
  assert (∀ l : list nat,
            omap (fun o => match o with
                           | OnClose r' event _ =>
                               if Nat.eqb r' r0 then Some event else None
                           | _ => None
                           end) (WinClose <$> l) = []) as Hnil.
  { induction l as [|w l IH]; by simpl. }
  by rewrite !Hnil, !app_nil_r.
Qed.

Lemma preserves_notify r0 arguments s : preserves r0 s (notify arguments s).2.
Proof.
  unfold notify, log.
  destruct arguments as [|v [|v' rest]]; simpl; [closed_chain | | closed_chain].
  destruct v; simpl; closed_chain.
Qed.

Lemma preserves_step r0 e s : preserves r0 s (step e s).
Proof.
  destruct e as [args | | i | i | t | k reason | w r | w r]; unfold step.
  - pose proof (preserves_notify r0 args s) as H.
    destruct (notify args s) as [[v|] s1]; simpl in H;
      (eapply preserves_trans; [exact H | closed_one]).
  - apply preserves_closeAll.
  - closed_chain.
  - unfold AnimationQueue.fulfilled, animate. closed_chain.
  - closed_chain.
  - closed_chain.
  - unfold ipc_close. closed_chain.
  - unfold ipc_click. closed_chain.
Qed.

Lemma preserves_run r0 es s : preserves r0 s (run es s).
Proof.
  induction es as [|e es IH] using rev_ind; [apply preserves_refl |].
  rewrite run_step. eapply preserves_trans; [exact IH | apply preserves_step].
Qed.

(** The first close of an object: the flag is set and [onCloseFunc], if
    there is one, is called once with the reason. *)
Lemma closeFunc_first c event s :
  is_closed (notificationObj c) s = false →
  let r := notificationObj c in
  let s1 := closeFunc c event s in
  is_closed r s1 = true
  ∧ onClose_calls r s1
    = onClose_calls r s
      ++ (if truthy (get_field r "onCloseFunc" s) then [event] else []).
Proof.
  intros Hc r s1. subst s1. unfold closeFunc. cbv zeta.
  unfold is_closed in Hc. rewrite Hc. fold r.
  set (sa := set_field r "closed" (VBool true) s).
  set (sb := if truthy (get_field r "onCloseFunc" sa)
             then emit (OnClose r event (get_field r "id" sa)) sa else sa).
  assert (is_closed r sb = true
          ∧ onClose_calls r sb
            = onClose_calls r s
              ++ (if truthy (get_field r "onCloseFunc" s) then [event] else []))
    as (Hcb & Hob).
  { subst sb sa. unfold is_closed.
    rewrite (get_field_set_ne r "closed" _ r "onCloseFunc") by auto.
    destruct (truthy (get_field r "onCloseFunc" s)).
    - change (get_field r "closed" (emit ?o ?x)) with (get_field r "closed" x).
      rewrite get_field_set_eq. split; [done |].
      unfold onClose_calls. simpl. rewrite omap_app. simpl.
      by rewrite Nat.eqb_refl.
    - rewrite get_field_set_eq. split; [done |]. by rewrite app_nil_r. }
  clearbody sb. clear sa.
  match goal with
  | |- is_closed r ?x = true ∧ _ => assert (preserves r sb x) as [_ Hp]
  end.
  { unfold clearTimeout. closed_chain. }
  destruct (Hp Hcb) as [Hc1 Ho1]. split; [done | by rewrite Ho1].
Qed.

Lemma keeps_once_refl r f s : keeps_once r f s s.
Proof. by intros ?. Qed.

Lemma keeps_once_trans r f s1 s2 s3 :
  keeps_once r f s1 s2 → keeps_once r f s2 s3 → keeps_once r f s1 s3.
Proof. unfold keeps_once. auto. Qed.

Lemma keeps_once_fields r f s s' :
  heap s' = heap s → trace s' = trace s → keeps_once r f s s'.
Proof.
  intros Hh Ht. unfold keeps_once, closed_once, is_closed, onClose_calls,
    get_field, get_obj.
  by rewrite Hh, Ht.
Qed.

Lemma keeps_once_emit r f o s :
  match o with OnClose r' _ _ => r' ≠ r | _ => True end →
  keeps_once r f s (emit o s).
Proof.
  intros Ho [Hf Hlen]. split; [done |].
  change (is_closed r (emit o s)) with (is_closed r s). rewrite <- Hlen.
  unfold onClose_calls. simpl. rewrite omap_app. simpl.
  destruct o; simpl; rewrite ?app_nil_r; try done.
  apply Nat.eqb_neq in Ho. by rewrite Ho, app_nil_r.
Qed.

Lemma keeps_once_set_id r f r' v s : keeps_once r f s (set_field r' "id" v s).
Proof.
  intros [Hf Hlen]. unfold closed_once, is_closed.
  rewrite !get_field_set_ne by auto. done.
Qed.

Lemma keeps_once_set_other r f r' k v s :
  r' ≠ r → keeps_once r f s (set_field r' k v s).
Proof.
  intros Hne [Hf Hlen]. unfold closed_once, is_closed.
  rewrite !get_field_set_ne by auto. done.
Qed.

Create HintDb once.
#[local] Hint Resolve keeps_once_set_id keeps_once_set_other : once.

Ltac once_one :=
  first [ by apply keeps_once_fields
        | by apply keeps_once_emit
        | auto with once ].
Ltac once_chain :=
  lazymatch goal with
  | |- keeps_once ?r ?f _ _ =>
      chain (keeps_once_refl r f) (keeps_once_trans r f) once_one
  end.

Lemma keeps_once_showNotification r0 f r s p s1 :
  showNotification r s = (p, s1) → keeps_once r0 f s s1.
Proof.
  unfold showNotification, getWindow. intros H. revert H.
  repeat case_match; intros [= <- <-]; simplify_eq; once_chain.
Qed.

Lemma keeps_once_animate_show r0 f r s : keeps_once r0 f s (animate_show r s).
Proof.
  unfold animate_show. destruct (showNotification r s) as [p s1] eqn:E.
  apply (keeps_once_showNotification r0 f) in E.
  eapply keeps_once_trans; [exact E | once_one].
Qed.
#[local] Hint Resolve keeps_once_animate_show : once.

Lemma keeps_once_push_show r0 f r s : keeps_once r0 f s (push_show r s).
Proof. unfold push_show, AnimationQueue.push. once_chain. Qed.
#[local] Hint Resolve keeps_once_push_show : once.

Lemma keeps_once_checkForQueuedNotifications r0 f s :
  keeps_once r0 f s (checkForQueuedNotifications s).
Proof. unfold checkForQueuedNotifications. once_chain. Qed.
#[local] Hint Resolve keeps_once_checkForQueuedNotifications : once.

(** The close function calls [onCloseFunc] only on the first close of
    its own object. *)
Lemma keeps_once_closeFunc r0 f c event s :
  keeps_once r0 f s (closeFunc c event s).
Proof.
  destruct (decide (notificationObj c = r0)) as [Heq | Hne].
  - intros Hinv. destruct (is_closed r0 s) eqn:Hc.
    + by rewrite closeFunc_closed by (by rewrite Heq).
    + destruct Hinv as [Hf Hlen]. rewrite Hc in Hlen. rewrite <- Heq in Hc.
      destruct (closeFunc_first c event s Hc) as [Hc1 Ho1].
      destruct (preserves_closeFunc r0 c event s) as [Hframe _].
      rewrite Heq in Hc, Hc1, Ho1. split.
      * by rewrite Hframe.
      * rewrite Ho1, length_app, Hlen, Hc1, Hf. simpl. by destruct f.
  - unfold closeFunc, clearTimeout. once_chain.
Qed.
#[local] Hint Resolve keeps_once_closeFunc : once.

Lemma keeps_once_animate_close r0 f c event s :
  keeps_once r0 f s (animate_close c event s).
Proof. unfold animate_close. once_chain. Qed.
#[local] Hint Resolve keeps_once_animate_close : once.

Lemma keeps_once_closeNotificationSafely r0 f c reason s :
  keeps_once r0 f s (closeNotificationSafely c reason s).
Proof.
  unfold closeNotificationSafely, AnimationQueue.push.
  destruct (AnimationQueue.running (animationQueue s)); once_chain.
Qed.
#[local] Hint Resolve keeps_once_closeNotificationSafely : once.

Lemma keeps_once_showNotification_then r0 f r w s :
  keeps_once r0 f s (showNotification_then r w s).
Proof. unfold showNotification_then, setTimeout. once_chain. Qed.
#[local] Hint Resolve keeps_once_showNotification_then : once.

Lemma keeps_once_closeAll r0 f s : keeps_once r0 f s (closeAll s).
Proof.
  intros [Hf Hlen]. destruct (preserves_closeAll (S r0) s) as [Hframe _].
  unfold closeAll in *. cbv zeta in *. rewrite !foldl_WinClose in *.
  split; [done |].
  change (is_closed r0 (set_inactiveWindows _ _)) with (is_closed r0 s).
  rewrite <- Hlen. unfold onClose_calls. simpl. rewrite !omap_app.
  assert (∀ l : list nat,
            omap (fun o => match o with
                           | OnClose r' event _ =>
                               if Nat.eqb r' r0 then Some event else None
                           | _ => None
                           end) (WinClose <$> l) = []) as Hnil.
  { induction l as [|w l IH]; by simpl. }
  by rewrite !Hnil, !app_nil_r.
Qed.

Lemma keeps_once_notify r0 f arguments s :
  keeps_once r0 f s (notify arguments s).2.
Proof.
  unfold notify, log.
  destruct arguments as [|v [|v' rest]]; simpl; [once_chain | | once_chain].
  destruct v; simpl; once_chain.
Qed.

Lemma keeps_once_step r0 f e s : keeps_once r0 f s (step e s).
Proof.
  destruct e as [args | | i | i | t | k reason | w r | w r]; unfold step.
  - pose proof (keeps_once_notify r0 f args s) as H.
    destruct (notify args s) as [[v|] s1]; simpl in H;
      (eapply keeps_once_trans; [exact H | once_one]).
  - apply keeps_once_closeAll.
  - once_chain.
  - unfold AnimationQueue.fulfilled, animate. once_chain.
  - once_chain.
  - once_chain.
  - unfold ipc_close. once_chain.
  - unfold ipc_click. once_chain.
Qed.

Lemma keeps_once_run r0 f es s : keeps_once r0 f s (run es s).
Proof.
  induction es as [|e es IH] using rev_ind; [apply keeps_once_refl |].
  rewrite run_step. eapply keeps_once_trans; [exact IH | apply keeps_once_step].
Qed.

(** A close through [closeNotification] on an object that is closed:
    the close function returns at once, so that only the animation
    queue and its pending promise see the call. *)
Lemma closeNotificationSafely_closed c reason s :
  is_closed (notificationObj c) s = true →
  let s' := closeNotificationSafely c reason s in
  heap s' = heap s ∧ trace s' = trace s
  ∧ activeNotifications s' = activeNotifications s
  ∧ inactiveWindows s' = inactiveWindows s
  ∧ notificationQueue s' = notificationQueue s
  ∧ timers s' = timers s.
Proof.
  intros Hc. unfold closeNotificationSafely, AnimationQueue.push.
  destruct (AnimationQueue.running (animationQueue s)); [done |].
  unfold animate_close. cbv zeta. by rewrite closeFunc_closed.
Qed.

(** The first close through [closeNotification]: run at once on an idle
    queue, appended to the queue while a task runs. *)
Lemma closeNotificationSafely_first c reason s :
  is_closed (notificationObj c) s = false →
  let r := notificationObj c in
  let reason' :=
    match reason with VUndefined => VStr "closedByAPI" | _ => reason end in
  let s' := closeNotificationSafely c reason s in
  if AnimationQueue.running (animationQueue s)
  then AnimationQueue.queue (animationQueue s')
       = AnimationQueue.queue (animationQueue s) ++ [Close c reason']
       ∧ is_closed r s' = false
       ∧ onClose_calls r s' = onClose_calls r s
  else is_closed r s' = true
       ∧ onClose_calls r s'
         = onClose_calls r s
           ++ (if truthy (get_field r "onCloseFunc" s) then [reason'] else []).
Proof.
  intros Hc r reason' s'. subst s'.
  unfold closeNotificationSafely, AnimationQueue.push. fold reason'.
  destruct (AnimationQueue.running (animationQueue s)); [done |].
  unfold animate_close. cbv zeta.
  set (sq := set_animationQueue _ s).
  assert (is_closed (notificationObj c) sq = false) as Hcq by exact Hc.
  destruct (closeFunc_first c reason' sq Hcq) as [Hc1 Ho1].
  split; [exact Hc1 | exact Ho1].
Qed.

(** Claim C6, as the code has it: close is idempotent per request
    object.  Take an object that does not come in closed, after any
    sequence of calls, timers, ipc messages and promise reactions.  Its
    [onCloseFunc] has been called exactly once if the object is closed
    and has one, and not at all otherwise, however many closes were
    asked for and by whatever path.  A close task that runs leaves the
    object closed.  Once it is closed it stays closed whatever happens
    later, [onCloseFunc] is not called again, every close function over
    the object returns with the whole state unchanged, and a call of
    [closeNotification] only occupies the animation queue.  While it is
    not closed, a call of [closeNotification] closes it at once on an
    idle queue (calling [onCloseFunc] with the reason), and is appended
    to the queue while a task runs. *)
Theorem close_is_idempotent h hp es later r w g reason event :
  let s0 := init h hp in
  let s := run es s0 in
  let c := Closer w r g in
  let f := truthy (get_field r "onCloseFunc" s0) in
  let reason' :=
    match reason with VUndefined => VStr "closedByAPI" | _ => reason end in
  let s' := closeNotificationSafely c reason s in
  is_closed r s0 = false →
  length (onClose_calls r s) = (if is_closed r s && f then 1 else 0)
  ∧ is_closed r (animate_close c event s) = true
  ∧ (if is_closed r s
     then is_closed r (run later s) = true
          ∧ onClose_calls r (run later s) = onClose_calls r s
          ∧ closeFunc c event s = s
          ∧ heap s' = heap s ∧ trace s' = trace s
          ∧ activeNotifications s' = activeNotifications s
          ∧ inactiveWindows s' = inactiveWindows s
          ∧ notificationQueue s' = notificationQueue s
          ∧ timers s' = timers s
     else if AnimationQueue.running (animationQueue s)
          then AnimationQueue.queue (animationQueue s')
               = AnimationQueue.queue (animationQueue s) ++ [Close c reason']
               ∧ is_closed r s' = false
               ∧ onClose_calls r s' = []
          else is_closed r s' = true
               ∧ onClose_calls r s' = (if f then [reason'] else [])).
Proof.
  intros s0 s c f reason' s' Hc0.
  assert (closed_once r f s) as [Hf Hlen].
  { apply (keeps_once_run r f es s0). split; [done |].
    rewrite Hc0. done. }
  split; [exact Hlen |]. split.
  { unfold animate_close. cbv zeta.
    change (is_closed r (set_promises ?p ?x)) with (is_closed r x).
    destruct (is_closed r s) eqn:Hc.
    - by rewrite closeFunc_closed.
    - by destruct (closeFunc_first c event s Hc). }
  destruct (is_closed r s) eqn:Hc.
  - destruct (preserves_run r later s) as [_ Hp].
    destruct (Hp Hc) as [Hc2 Ho2].
    split; [done |]. split; [done |].
    split; [by apply closeFunc_closed |].
    exact (closeNotificationSafely_closed c reason s Hc).
  - simpl in Hlen. apply nil_length_inv in Hlen.
    pose proof (closeNotificationSafely_first c reason s Hc) as H.
    cbv zeta in H. fold reason' s' in H. cbn [notificationObj c] in H.
    destruct (AnimationQueue.running (animationQueue s)).
    + destruct H as (Hq & Hc1 & Ho1). by rewrite Ho1, Hlen.
    + destruct H as (Hc1 & Ho1). split; [done |].
      rewrite Ho1, Hlen, Hf. done.
Qed.

(** One notification with both callbacks: closed by its timer, then
    closed twice more through the function given to [onShowFunc]. *)
Lemma close_is_idempotent_witness :
  let hp : gmap nat (gmap string val) :=
    {[ 0 := {[ "onCloseFunc" := VFun 0; "onShowFunc" := VFun 1 ]} ]} in
  let es := [Notify [VObj 0]; WindowReady 0; TaskDone 0;
             Timeout 0; TaskDone 0; CallClose 0 VUndefined; TaskDone 0;
             CallClose 0 (VStr "again"); TaskDone 0] in
  let s := run es (init 1000 hp) in
  is_closed 0 (init 1000 hp) = false
  ∧ is_closed 0 s = true
  ∧ length (onClose_calls 0 s) = 1
  ∧ onClose_calls 0 s = [VStr "timeout"].
Proof.
  intros hp es s.
  assert (is_closed 0 (init 1000 hp) = false) as Hc0 by (vm_compute; reflexivity).
  assert (is_closed 0 s = true) as Hc by (vm_compute; reflexivity).
  split; [exact Hc0 |]. split; [exact Hc |].
  split; [| vm_compute; reflexivity].
  destruct (close_is_idempotent 1000 hp es [] 0 0 None VUndefined VUndefined Hc0)
    as [Hlen _].
  fold s in Hlen. rewrite Hc in Hlen. exact Hlen.
Defined.

(** Claim C6 as stated fails in two ways.  A notification dismissed from
    its window is closed through the object the ipc message delivers
    (object 1, a copy of request 0 without its functions): the flag is
    set on the copy, [onCloseFunc] is not called, and the close that the
    timer asks for afterwards is no no-op, it calls [onCloseFunc] and
    pushes the window on the pool a second time.  And two closes asked
    for while a task runs, and dropped from the queue by [closeAll],
    call [onCloseFunc] not once but never. *)
Lemma close_twice_is_not_always_once :
  let hp : gmap nat (gmap string val) :=
    {[ 0 := {[ "onCloseFunc" := VFun 0; "onShowFunc" := VFun 1 ]};
       1 := {[ "id" := VNum 0 ]} ]} in
  let shown := run [Notify [VObj 0]; WindowReady 0; TaskDone 0] (init 1000 hp) in
  let dismissed := run [IpcClose 0 1; TaskDone 0] shown in
  let timed_out := run [Timeout 0; TaskDone 0] dismissed in
  let dropped :=
    run [Notify [VObj 0]; WindowReady 0;
         CallClose 0 VUndefined; CallClose 0 (VStr "again");
         CloseAll; TaskDone 0] (init 1000 hp) in
  (activeNotifications dismissed = []
   ∧ inactiveWindows dismissed = [0]
   ∧ onClose_calls 0 dismissed = []
   ∧ onClose_calls 0 timed_out = [VStr "timeout"]
   ∧ inactiveWindows timed_out = [0; 0]
   ∧ timed_out ≠ dismissed)
  ∧ (AnimationQueue.queue (animationQueue dropped) = []
     ∧ AnimationQueue.running (animationQueue dropped) = false
     ∧ is_closed 0 dropped = false
     ∧ length (onClose_calls 0 dropped) ≠ 1).
Proof.
  intros hp shown dismissed timed_out dropped.
  assert (inactiveWindows dismissed = [0]) as Hd by (vm_compute; reflexivity).
  assert (inactiveWindows timed_out = [0; 0]) as Ht by (vm_compute; reflexivity).
  split.
  - split; [vm_compute; reflexivity |]. split; [exact Hd |].
    split; [vm_compute; reflexivity |]. split; [vm_compute; reflexivity |].
    split; [exact Ht |].
    intros Heq. rewrite Heq, Hd in Ht. discriminate Ht.
  - split; [vm_compute; reflexivity |]. split; [vm_compute; reflexivity |].
    split; [vm_compute; reflexivity |].
    assert (onClose_calls 0 dropped = []) as -> by (vm_compute; reflexivity).
    simpl. lia.
Qed.

(** ** Sharing of the request object *)



(** ** The display timer *)

Lemma same_timers_refl s : same_timers s s.
Proof. done. Qed.

Lemma same_timers_trans s1 s2 s3 :
  same_timers s1 s2 → same_timers s2 s3 → same_timers s1 s3.
Proof. unfold same_timers. congruence. Qed.

Ltac timers_chain :=
  chain same_timers_refl same_timers_trans ltac:(by unfold same_timers).

(** A close function built without the timer getter, as both ipc
    handlers build it, never cancels a timer. *)
Lemma closeFunc_without_getter_keeps_timers w r event s :
  timers (closeFunc (Closer w r None) event s) = timers s.
Proof.
  change (same_timers s (closeFunc (Closer w r None) event s)).
  assert (∀ r0 s0, same_timers s0 (push_show r0 s0)) as Hpush.
  { intros r0 s0. unfold push_show, AnimationQueue.push, animate_show,
      showNotification, getWindow.
    repeat case_match; simplify_eq; done. }
  assert (∀ s0, same_timers s0 (checkForQueuedNotifications s0)) as Hcheck.
  { intros s0. unfold checkForQueuedNotifications.
    repeat case_match; try done.
    eapply same_timers_trans; [| apply Hpush]. done. }
  unfold closeFunc, set_field. cbn [getTimeoutId].
  chain same_timers_refl same_timers_trans
    ltac:(first [apply Hcheck | by unfold same_timers]).
Qed.

(** Claim C7, where it fails.  A notification is on display with its
    timer armed.  The close message from its window closes it and puts
    the window back into the pool, but the timer stays armed: the close
    function of the ipc handler has no timer getter.  The timer then
    fires on the closed notification and starts a close task.  Closing
    through the callback given to [onShowFunc] instead does cancel the
    timer. *)
Theorem ipc_close_leaves_timer_armed :
  let hp : gmap nat (gmap string val) := {[ 0 := {[ "onShowFunc" := VFun 1 ]} ]} in
  let s := run [Notify [VObj 0]; WindowReady 0; TaskDone 0] (init 1000 hp) in
  let by_ipc := run [IpcClose 0 0; TaskDone 0] s in
  let by_api := run [CallClose 0 VUndefined; TaskDone 0] s in
  activeNotifications s = [0]
  ∧ timers s = [(0, Closer 0 0 (Some 0))]
  ∧ is_closed 0 by_ipc = true
  ∧ activeNotifications by_ipc = []
  ∧ inactiveWindows by_ipc = [0]
  ∧ timers by_ipc = [(0, Closer 0 0 (Some 0))]
  ∧ AnimationQueue.running (animationQueue by_ipc) = false
  ∧ promises (step (Timeout 0) by_ipc) = [Resolved]
  ∧ AnimationQueue.running (animationQueue (step (Timeout 0) by_ipc)) = true
  ∧ is_closed 0 by_api = true
  ∧ timers by_api = [].
Proof. by vm_compute. Qed.

(** The same run when the ipc message carries a copy of the request
    (object 1) instead of the request itself (object 0), and the pooled
    window is taken by the next notification (object 2): the timer left
    armed closes request 0 a second time, hides the window that now
    shows request 2 and takes it off the active list, although request 2
    is not closed. *)
Lemma stray_timer_hides_recycled_window :
  let hp : gmap nat (gmap string val) :=
    {[ 0 := {[ "onCloseFunc" := VFun 0 ]}; 1 := {[ "id" := VNum 0 ]} ]} in
  let s := run [Notify [VObj 0]; WindowReady 0; TaskDone 0;
                IpcClose 0 1; TaskDone 0;
                Notify [VObj 2]; WindowReady 0; TaskDone 0] (init 1000 hp) in
  let s' := run [Timeout 0; TaskDone 0] s in
  activeNotifications s = [0]
  ∧ notificationObj <$> (snd <$> timers s) = [0; 2]
  ∧ onClose_calls 0 s' = [VStr "timeout"]
  ∧ activeNotifications s' = []
  ∧ inactiveWindows s' = [0]
  ∧ is_closed 2 s' = false.
Proof. by vm_compute. Qed.

(** * Further properties of the code *)

(** ** The animation queue makes progress *)

Section QueueProgress.
Context {T : Type}.
Import AnimationQueue.

Implicit Types (w : world T) (es : list (event T)).

Lemma drain_list (q : list T) x st lg :
  run (replicate (S (length q)) (Fulfil 0)) (World (mk q true) [x] st lg)
  = World (mk [] false) [] (st ++ q) lg.
Proof.
  revert x st. induction q as [|next rest IH]; intros x st.
  - by rewrite app_nil_r.
  - change (run (replicate (S (length (next :: rest))) (Fulfil 0))
              (World (mk (next :: rest) true) [x] st lg))
      with (run (replicate (S (length rest)) (Fulfil 0))
              (World (mk rest true) [next] (st ++ [next]) lg)).
    by rewrite IH, <- app_assoc.
Qed.

Lemma drain_running w x :
  running (aq w) = true → inflight w = [x] →
  let w' := run (replicate (S (length (queue (aq w)))) (Fulfil 0)) w in
  started w' = started w ++ queue (aq w)
  ∧ queue (aq w') = []
  ∧ running (aq w') = false
  ∧ inflight w' = []
  ∧ logged w' = logged w.
Proof.
  destruct w as [[q r] fl st lg]. cbn [aq running inflight queue started logged].
  intros -> ->. cbv zeta. by rewrite drain_list.
Qed.

(** When every task's promise is fulfilled, the tasks that wait are
    started one after the other in queue order, and the queue ends
    idle: one fulfilment per waiting task, plus one for the task in
    flight. *)
Theorem queue_drains_in_push_order es x :
  let w := run es init in
  inflight w = [x] →
  let w' := run (replicate (S (length (queue (aq w)))) (Fulfil 0)) w in
  started w' = started w ++ queue (aq w)
  ∧ queue (aq w') = []
  ∧ running (aq w') = false
  ∧ inflight w' = []
  ∧ logged w' = logged w.
Proof.
  intros w Hfl. apply (drain_running w x); [| done].
  destruct (serial_run es init serial_init) as [_ Hidle]. fold w in Hidle.
  destruct (running (aq w)); [done |].
  destruct (Hidle eq_refl) as [Hnil _]. by rewrite Hnil in Hfl.
Qed.

(** [clear] drops the waiting tasks for good but not the task in
    flight: when that one is fulfilled the queue goes idle without
    having started any of them, and the next push starts at once. *)
Theorem clear_drops_waiting_tasks_only es x object later :
  let w := run es init in
  inflight w = [x] →
  let w1 := step Clear w in
  let w2 := step (Fulfil 0) w1 in
  inflight w1 = [x]
  ∧ queue (aq w1) = []
  ∧ started w2 = started w
  ∧ running (aq w2) = false
  ∧ started (run later w2) `sublist_of` (started w ++ pushes later)
  ∧ started (step (Push object) w2) = started w ++ [object].
Proof.
  intros w Hfl w1 w2.
  assert (w2 = World (mk [] false) [] (started w) (logged w)) as Hw2.
  { subst w2 w1. simpl. by rewrite Hfl. }
  split; [done |]. split; [done |]. rewrite Hw2. simpl.
  split; [done |]. split; [done |]. split; [| done].
  clear. generalize (started w) as st. generalize (logged w) as lg.
  intros lg st.
  assert (∀ l w0, serial w0 →
            (started (run l w0) ++ queue (aq (run l w0)))
              `sublist_of` ((started w0 ++ queue (aq w0)) ++ pushes l)) as Hgen.
  { induction l as [|e l IH] using rev_ind; intros w0 Hs.
    - simpl. by rewrite app_nil_r.
    - rewrite run_snoc, pushes_snoc.
      pose proof (serial_run l w0 Hs) as [Hlen Hidle].
      specialize (IH w0 Hs). revert IH Hlen Hidle.
      generalize (started w0 ++ queue (aq w0)) as base.
      destruct (run l w0) as [[q r] fl st' lg']. simpl. intros base IH Hlen Hidle.
      destruct e as [o | i | i |]; simpl.
      + unfold push; simpl. destruct r; simpl.
        * rewrite !app_assoc. by apply sublist_app.
        * destruct (Hidle eq_refl) as [_ ->]. rewrite !app_nil_r in *.
          rewrite app_assoc. by apply sublist_app.
      + rewrite app_nil_r. destruct (fl !! i); [| done].
        unfold fulfilled; simpl. destruct q as [|next rest]; simpl; [done |].
        by rewrite <- app_assoc.
      + rewrite app_nil_r. by destruct (fl !! i).
      + rewrite !app_nil_r. etrans; [| exact IH]. by apply sublist_inserts_r. }
  specialize (Hgen later (World (mk [] false) [] st lg)).
  simpl in Hgen. rewrite app_nil_r in Hgen.
  etrans; [| apply Hgen; split; simpl; [lia | done]].
  by apply sublist_inserts_r.
Qed.
End QueueProgress.

(** Three tasks pushed: two fulfilments after the first task's start
    bring the queue to rest with all three started in order. *)
Lemma queue_drains_in_push_order_witness :
  let es := [AnimationQueue.Push 1; AnimationQueue.Push 2; AnimationQueue.Push 3] in
  let w := AnimationQueue.run es AnimationQueue.init in
  let w' := AnimationQueue.run (replicate 3 (AnimationQueue.Fulfil 0)) w in
  AnimationQueue.inflight w = [1]
  ∧ AnimationQueue.started w' = [1; 2; 3]
  ∧ AnimationQueue.running (AnimationQueue.aq w') = false.
Proof.
  split; [reflexivity |].
  destruct (queue_drains_in_push_order
              [AnimationQueue.Push 1; AnimationQueue.Push 2; AnimationQueue.Push 3]
              1 eq_refl) as (H1 & _ & H3 & _).
  split; [exact H1 | exact H3].
Defined.

Lemma clear_drops_waiting_tasks_only_witness :
  let es := [AnimationQueue.Push 1; AnimationQueue.Push 2; AnimationQueue.Push 3] in
  let w := AnimationQueue.run es AnimationQueue.init in
  let w2 := AnimationQueue.run [AnimationQueue.Clear; AnimationQueue.Fulfil 0] w in
  AnimationQueue.inflight w = [1]
  ∧ AnimationQueue.started w2 = [1]
  ∧ AnimationQueue.started (AnimationQueue.step (AnimationQueue.Push 4) w2) = [1; 4].
Proof.
  split; [reflexivity |].
  destruct (clear_drops_waiting_tasks_only
              [AnimationQueue.Push 1; AnimationQueue.Push 2; AnimationQueue.Push 3]
              1 4 [] eq_refl) as (_ & _ & H3 & _ & _ & H6).
  split; [exact H3 | exact H6].
Defined.

(** ** No request is lost or shown twice *)

Lemma balanced_refl s : balanced s s.
Proof. done. Qed.

Lemma balanced_trans s1 s2 s3 : balanced s1 s2 → balanced s2 s3 → balanced s1 s3.
Proof. unfold balanced. congruence. Qed.

Lemma balanced_fields s s' :
  animationQueue s' = animationQueue s → promises s' = promises s →
  notificationQueue s' = notificationQueue s → trace s' = trace s →
  balanced s s'.
Proof.
  intros Hq Hp Hn Ht.
  unfold balanced, accounted, queued_shows, awaiting, shown.
  by rewrite Hq, Hp, Hn, Ht.
Qed.

Lemma shown_emit o s :
  shown (emit o s)
  = shown s ++ match o with ShowInactive w => [w] | _ => [] end.
Proof. unfold shown. simpl. rewrite omap_app. by destruct o. Qed.

Lemma balanced_emit o s :
  match o with ShowInactive _ => False | _ => True end → balanced s (emit o s).
Proof.
  intros Ho. unfold balanced, accounted. rewrite shown_emit.
  destruct o; try done; by rewrite app_nil_r.
Qed.

Create HintDb balance.

Ltac acc_norm :=
  unfold accounted, queued_shows, awaiting, shown in *; simpl in *;
  rewrite ?omap_app, ?List.filter_app, ?length_app; simpl;
  rewrite ?app_nil_r, ?length_app; simpl.

Ltac balanced_one :=
  first [ by apply balanced_fields | by apply balanced_emit | auto with balance ].
Ltac balanced_chain := chain balanced_refl balanced_trans balanced_one.

Lemma accounted_showNotification r s p s1 :
  showNotification r s = (p, s1) →
  accounted s1 + (if is_awaiting p then 1 else 0) = accounted s + 1.
Proof.
  unfold showNotification, getWindow. intros H. revert H.
  repeat case_match; intros [= <- <-]; simplify_eq; acc_norm; lia.
Qed.

Lemma accounted_animate_show r s :
  accounted (animate_show r s) = accounted s + 1.
Proof.
  unfold animate_show. destruct (showNotification r s) as [p s1] eqn:E.
  apply accounted_showNotification in E. destruct p; acc_norm; lia.
Qed.

Lemma accounted_push_show r s : accounted (push_show r s) = accounted s + 1.
Proof.
  unfold push_show, AnimationQueue.push.
  destruct (AnimationQueue.running (animationQueue s)).
  - acc_norm. lia.
  - rewrite accounted_animate_show. done.
Qed.

Lemma balanced_checkForQueuedNotifications s :
  balanced s (checkForQueuedNotifications s).
Proof.
  unfold checkForQueuedNotifications, balanced.
  destruct (notificationQueue s) as [|r rest] eqn:Hq; [done |].
  case_match; [| done]. rewrite accounted_push_show.
  acc_norm. rewrite Hq. simpl. lia.
Qed.
#[local] Hint Resolve balanced_checkForQueuedNotifications : balance.

Lemma balanced_closeFunc c event s : balanced s (closeFunc c event s).
Proof. unfold closeFunc, clearTimeout, set_field. balanced_chain. Qed.
#[local] Hint Resolve balanced_closeFunc : balance.

Lemma balanced_animate_close c event s : balanced s (animate_close c event s).
Proof.
  unfold animate_close. cbv zeta.
  apply (balanced_trans s (closeFunc c event s)); [apply balanced_closeFunc |].
  generalize (closeFunc c event s). intros s1.
  unfold balanced. acc_norm. lia.
Qed.
#[local] Hint Resolve balanced_animate_close : balance.

Lemma balanced_closeNotificationSafely c reason s :
  balanced s (closeNotificationSafely c reason s).
Proof.
  unfold closeNotificationSafely, AnimationQueue.push. cbv zeta.
  destruct (AnimationQueue.running (animationQueue s)).
  - unfold balanced. acc_norm. lia.
  - eapply balanced_trans; [| apply balanced_animate_close].
    unfold balanced. acc_norm. lia.
Qed.

Lemma accounted_emit o s :
  match o with ShowInactive _ => False | _ => True end →
  accounted (emit o s) = accounted s.
Proof. apply balanced_emit. Qed.

Lemma accounted_animate_close c event s :
  accounted (animate_close c event s) = accounted s.
Proof. apply balanced_animate_close. Qed.

Lemma accounted_closeNotificationSafely c reason s :
  accounted (closeNotificationSafely c reason s) = accounted s.
Proof. apply balanced_closeNotificationSafely. Qed.

Lemma accounted_showNotification_then r w s :
  accounted (showNotification_then r w s) = accounted s + 1
  ∧ promises (showNotification_then r w s) = promises s.
Proof.
  unfold showNotification_then, setTimeout.
  repeat case_match; (split; [acc_norm; lia | done]).
Qed.

Lemma accounted_closeAll s :
  accounted (closeAll s) + queued_shows s = accounted s.
Proof.
  unfold closeAll. cbv zeta. rewrite !foldl_WinClose.
  unfold accounted, queued_shows, awaiting, shown. simpl.
  rewrite !omap_app.
  assert (∀ l : list nat,
            omap (fun o => match o with ShowInactive w => Some w | _ => None end)
                 (WinClose <$> l) = []) as Hnil.
  { induction l as [|w l IH]; by simpl. }
  rewrite !Hnil, !app_nil_r. lia.
Qed.

Lemma accounted_step e s :
  accounted (step e s) + (if is_closeAll e then queued_shows s else 0)
  = accounted s + (if is_valid_call e then 1 else 0).
Proof.
  destruct e as [args | | i | i | t | k reason | w r | w r]; unfold step;
    cbn [is_closeAll]; [| cbn [is_valid_call]..].
  - destruct (is_valid_call (Notify args)) eqn:Hv.
    + destruct args as [|[] [|]]; try done. rewrite notify_object.
      set (s1 := set_latestID _ _).
      rewrite accounted_emit by done. rewrite accounted_push_show. done.
    + assert (balanced s (notify args s).2) as Hb.
      { unfold notify, log.
        destruct args as [|v [|v' rest]]; simpl; [balanced_chain | | balanced_chain].
        destruct v; simpl in *; try done; balanced_chain. }
      destruct (notify args s) as [[v|] s1]; simpl in Hb;
        unfold balanced in Hb; rewrite <- Hb;
        rewrite accounted_emit by done; lia.
  - pose proof (accounted_closeAll s). lia.
  - destruct (promises s !! i) as [[r w fresh|]|] eqn:Hi; try lia.
    set (s0 := if fresh then _ else s).
    assert (accounted s0 = accounted s ∧ promises s0 = promises s) as [Ha0 Hp0].
    { subst s0. destruct fresh; [| done]. split; [| done].
      by apply accounted_emit. }
    destruct (accounted_showNotification_then r w s0) as [Ha1 Hp1].
    revert Ha1 Hp1. generalize (showNotification_then r w s0). intros s1 Ha1 Hp1.
    rewrite <- Ha0. revert Ha1. unfold accounted, queued_shows, awaiting, shown. simpl.
    rewrite Hp1, Hp0.
    assert (length (List.filter is_awaiting (<[i:=Resolved]> (promises s))) + 1
            = length (List.filter is_awaiting (promises s))); [| lia].
    clear -Hi. revert i Hi. induction (promises s) as [|p l IH]; intros [|i] Hi;
      simpl in *; simplify_eq; simpl; [lia |].
    specialize (IH i Hi). destruct (is_awaiting p); simpl; lia.
  - destruct (promises s !! i) as [[r w fresh|]|] eqn:Hi; try lia.
    assert (length (List.filter is_awaiting (delete i (promises s)))
            = length (List.filter is_awaiting (promises s))) as Hdel.
    { clear -Hi. revert i Hi. induction (promises s) as [|p l IH]; intros [|i] Hi;
        simpl in *; simplify_eq; simpl; [done |].
      specialize (IH i Hi). destruct (is_awaiting p); simpl; lia. }
    unfold AnimationQueue.fulfilled.
    destruct (AnimationQueue.queue (animationQueue s)) as [|[r | c event] rest] eqn:Hq;
      cbn [animate].
    + unfold accounted, queued_shows, awaiting, shown in *. simpl. rewrite Hq. simpl. lia.
    + rewrite accounted_animate_show.
      unfold accounted, queued_shows, awaiting, shown in *. simpl. rewrite Hq. simpl. lia.
    + rewrite accounted_animate_close.
      unfold accounted, queued_shows, awaiting, shown in *. simpl. rewrite Hq. simpl. lia.
  - destruct (list_find _ _) as [[? [? c]]|]; [| lia].
    rewrite accounted_closeNotificationSafely.
    unfold accounted, queued_shows, awaiting, shown. simpl. lia.
  - destruct (handles s !! k); [| lia].
    rewrite accounted_closeNotificationSafely. lia.
  - destruct (w <? nextWindow s); [| lia]. unfold ipc_close. cbv zeta.
    rewrite accounted_closeNotificationSafely. lia.
  - destruct (w <? nextWindow s); [| lia].
    assert (balanced s (ipc_click w r s)) as Hb; [| unfold balanced in Hb; lia].
    unfold ipc_click. balanced_chain.
Qed.

(** The same account by identity: which request is where. *)
Lemma same_waiting_refl s : same_waiting s s.
Proof. by split. Qed.

Lemma same_waiting_trans s1 s2 s3 :
  same_waiting s1 s2 → same_waiting s2 s3 → same_waiting s1 s3.
Proof.
  intros [Hw1 Hs1] [Hw2 Hs2]. split; [by rewrite Hw2 | congruence].
Qed.

Lemma same_waiting_fields s s' :
  animationQueue s' = animationQueue s → promises s' = promises s →
  notificationQueue s' = notificationQueue s → trace s' = trace s →
  same_waiting s s'.
Proof.
  intros Hq Hp Hn Ht. unfold same_waiting, waiting, awaited, queued, shown.
  by rewrite Hq, Hp, Hn, Ht.
Qed.

Lemma same_waiting_emit o s :
  match o with ShowInactive _ => False | _ => True end →
  same_waiting s (emit o s).
Proof.
  intros Ho. split; [done |]. rewrite shown_emit.
  destruct o; try done; by rewrite app_nil_r.
Qed.

Create HintDb waiting.

Ltac waiting_one :=
  first [ by apply same_waiting_fields
        | by apply same_waiting_emit
        | auto with waiting ].
Ltac waiting_chain := chain same_waiting_refl same_waiting_trans waiting_one.

Lemma waiting_animate_show r s :
  waiting (animate_show r s) ≡ₚ r :: waiting s
  ∧ shown (animate_show r s) = shown s.
Proof.
  unfold animate_show, showNotification, getWindow.
  repeat case_match; simplify_eq;
    unfold waiting, awaited, queued, shown; simpl;
    rewrite ?omap_app; simpl; rewrite ?app_nil_r;
    (split; [solve_Permutation | done]).
Qed.

Lemma waiting_push_show r s :
  waiting (push_show r s) ≡ₚ r :: waiting s
  ∧ shown (push_show r s) = shown s.
Proof.
  unfold push_show, AnimationQueue.push.
  destruct (AnimationQueue.running (animationQueue s)).
  - unfold waiting, awaited, queued, shown. simpl. rewrite omap_app. simpl.
    split; [solve_Permutation | done].
  - destruct (waiting_animate_show r (set_animationQueue
               (AnimationQueue.mk (AnimationQueue.queue (animationQueue s)) true) s))
      as [Hw Hs].
    split; [by rewrite Hw | by rewrite Hs].
Qed.

Lemma same_waiting_checkForQueuedNotifications s :
  same_waiting s (checkForQueuedNotifications s).
Proof.
  unfold checkForQueuedNotifications.
  destruct (notificationQueue s) as [|r rest] eqn:Hq; [apply same_waiting_refl |].
  case_match; [| apply same_waiting_refl].
  destruct (waiting_push_show r (set_notificationQueue rest s)) as [Hw Hs].
  split; [| by rewrite Hs]. rewrite Hw.
  unfold waiting, awaited, queued. simpl. rewrite Hq. solve_Permutation.
Qed.
#[local] Hint Resolve same_waiting_checkForQueuedNotifications : waiting.

Lemma same_waiting_closeFunc c event s : same_waiting s (closeFunc c event s).
Proof. unfold closeFunc, clearTimeout, set_field. waiting_chain. Qed.
#[local] Hint Resolve same_waiting_closeFunc : waiting.

Lemma same_waiting_animate_close c event s :
  same_waiting s (animate_close c event s).
Proof.
  unfold animate_close. cbv zeta.
  apply (same_waiting_trans s (closeFunc c event s));
    [apply same_waiting_closeFunc |].
  generalize (closeFunc c event s). intros s1.
  unfold same_waiting, waiting, awaited, queued, shown. simpl.
  rewrite omap_app. simpl. by rewrite app_nil_r.
Qed.
#[local] Hint Resolve same_waiting_animate_close : waiting.

Lemma same_waiting_closeNotificationSafely c reason s :
  same_waiting s (closeNotificationSafely c reason s).
Proof.
  unfold closeNotificationSafely, AnimationQueue.push. cbv zeta.
  destruct (AnimationQueue.running (animationQueue s)).
  - unfold same_waiting, waiting, awaited, queued, shown. simpl.
    rewrite omap_app. simpl. by rewrite app_nil_r.
  - eapply same_waiting_trans; [| apply same_waiting_animate_close].
    by unfold same_waiting, waiting, awaited, queued, shown.
Qed.
#[local] Hint Resolve same_waiting_closeNotificationSafely : waiting.

Lemma waiting_showNotification_then r w s :
  waiting (showNotification_then r w s) = waiting s
  ∧ promises (showNotification_then r w s) = promises s
  ∧ shown (showNotification_then r w s) = shown s ++ [w].
Proof.
  unfold showNotification_then, setTimeout.
  repeat case_match;
    (split; [done |]; split; [done |];
     unfold shown; simpl; rewrite ?omap_app; simpl;
     by rewrite ?app_nil_r).
Qed.

Lemma awaited_resolve (l : list pending) (i : nat) r w fresh :
  l !! i = Some (AwaitWindow r w fresh) →
  r :: omap (fun p => match p with
                      | AwaitWindow r _ _ => Some r
                      | Resolved => None
                      end) (<[i := Resolved]> l)
  ≡ₚ omap (fun p => match p with
                    | AwaitWindow r _ _ => Some r
                    | Resolved => None
                    end) l.
Proof.
  revert i. induction l as [|p l IH]; intros [|i] Hi; simpl in *; simplify_eq;
    [done |].
  specialize (IH i Hi). destruct p as [r' w' f'|]; simpl; [| exact IH].
  etransitivity; [apply Permutation_swap |]. apply Permutation_skip. exact IH.
Qed.

Lemma awaited_delete (l : list pending) (i : nat) :
  l !! i = Some Resolved →
  omap (fun p => match p with
                 | AwaitWindow r _ _ => Some r
                 | Resolved => None
                 end) (delete i l)
  = omap (fun p => match p with
                   | AwaitWindow r _ _ => Some r
                   | Resolved => None
                   end) l.
Proof.
  revert i. induction l as [|p l IH]; intros [|i] Hi; simpl in *; simplify_eq;
    [done |].
  specialize (IH i Hi). destruct p; simpl; [f_equal |]; exact IH.
Qed.

(** One step: the requests that wait afterwards, with the one the step
    puts on display, are those that waited before and the one the step
    accepted; [closeAll] apart, which drops the queued ones. *)
Lemma waiting_step e s :
  is_closeAll e = false →
  (put_on_display e s).*1 ++ waiting (step e s) ≡ₚ waiting s ++ submitted [e].
Proof.
  intros He.
  destruct e as [args | | i | i | t | k reason | w r | w r]; try done;
    unfold step; cbn [put_on_display fmap list_fmap app];
    try (change (submitted [_]) with (@nil nat)).
  - destruct (is_valid_call (Notify args)) eqn:Hv.
    + destruct args as [|[] [|]]; try done. rewrite notify_object.
      set (s1 := set_latestID _ _).
      change (submitted [_]) with [r].
      change (waiting (emit ?o ?x)) with (waiting x).
      destruct (waiting_push_show r s1) as [Hw _]. rewrite Hw.
      change (waiting s1) with (waiting s). solve_Permutation.
    + assert (same_waiting s (notify args s).2) as [Hb _].
      { unfold notify, log.
        destruct args as [|v [|v' rest]]; simpl; [waiting_chain | | waiting_chain].
        destruct v; simpl in *; try done; waiting_chain. }
      assert (submitted [Notify args] = []) as ->.
      { destruct args as [|[] [|]]; done. }
      rewrite app_nil_r.
      destruct (notify args s) as [[v|] s1]; simpl in Hb;
        change (waiting (emit ?o ?x)) with (waiting x); exact Hb.
  - rewrite app_nil_r.
    destruct (promises s !! i) as [[r w fresh|]|] eqn:Hi; try done.
    set (s0 := if fresh then _ else s).
    assert (waiting s0 = waiting s ∧ promises s0 = promises s) as [Hw0 Hp0].
    { subst s0. by destruct fresh. }
    destruct (waiting_showNotification_then r w s0) as (Hw1 & Hp1 & _).
    revert Hw1 Hp1. generalize (showNotification_then r w s0). intros s1 Hw1 Hp1.
    rewrite <- Hw0, <- Hw1. unfold waiting, awaited, queued. simpl.
    rewrite <- (awaited_resolve (promises s1) i r w fresh)
      by (by rewrite Hp1, Hp0).
    done.
  - rewrite app_nil_r.
    destruct (promises s !! i) as [[r w fresh|]|] eqn:Hi; try done.
    pose proof (awaited_delete (promises s) i Hi) as Hdel.
    unfold AnimationQueue.fulfilled.
    destruct (AnimationQueue.queue (animationQueue s)) as [|[r | c event] rest] eqn:Hq;
      cbn [animate].
    + unfold waiting, awaited, queued. simpl. by rewrite Hdel, Hq.
    + match goal with
      | |- waiting (animate_show r ?x) ≡ₚ _ =>
          destruct (waiting_animate_show r x) as [Hw _]; rewrite Hw
      end.
      unfold waiting, awaited, queued. simpl. rewrite Hdel, Hq. simpl.
      solve_Permutation.
    + match goal with
      | |- waiting (animate_close c event ?x) ≡ₚ _ =>
          destruct (same_waiting_animate_close c event x) as [Hw _]; rewrite Hw
      end.
      unfold waiting, awaited, queued. simpl. by rewrite Hdel, Hq.
  - rewrite app_nil_r. destruct (list_find _ _) as [[? [? c]]|]; [| done].
    match goal with
    | |- waiting (closeNotificationSafely c ?v ?x) ≡ₚ _ =>
        destruct (same_waiting_closeNotificationSafely c v x) as [Hw _]; rewrite Hw
    end.
    done.
  - rewrite app_nil_r. destruct (handles s !! k); [| done].
    by destruct (same_waiting_closeNotificationSafely c reason s) as [Hw _].
  - rewrite app_nil_r. destruct (w <? nextWindow s); [| done].
    unfold ipc_close. cbv zeta.
    match goal with
    | |- waiting (closeNotificationSafely ?c ?v s) ≡ₚ _ =>
        by destruct (same_waiting_closeNotificationSafely c v s) as [Hw _]
    end.
  - rewrite app_nil_r. destruct (w <? nextWindow s); [| done].
    assert (same_waiting s (ipc_click w r s)) as [Hb _]; [| exact Hb].
    unfold ipc_click. waiting_chain.
Qed.

(** One step shows the window of the request it puts on display, and no
    other. *)
Lemma shown_step e s :
  shown (step e s) = shown s ++ (put_on_display e s).*2.
Proof.
  destruct e as [args | | i | i | t | k reason | w r | w r];
    unfold step; cbn [put_on_display fmap list_fmap]; rewrite ?app_nil_r.
  - assert (shown (notify args s).2 = shown s) as Hb.
    { destruct (is_valid_call (Notify args)) eqn:Hv.
      - destruct args as [|[] [|]]; try done. rewrite notify_object.
        set (s1 := set_latestID _ _). cbn [snd].
        by destruct (waiting_push_show r s1) as [_ ->].
      - assert (same_waiting s (notify args s).2) as [_ Hb]; [| exact Hb].
        unfold notify, log.
        destruct args as [|v [|v' rest]]; simpl; [waiting_chain | | waiting_chain].
        destruct v; simpl in *; try done; waiting_chain. }
    destruct (notify args s) as [[v|] s1]; simpl in Hb;
      rewrite shown_emit; simpl; by rewrite app_nil_r.
  - unfold closeAll. cbv zeta. rewrite !foldl_WinClose.
    unfold shown. simpl. rewrite !omap_app.
    assert (∀ l : list nat,
              omap (fun o => match o with ShowInactive w => Some w | _ => None end)
                   (WinClose <$> l) = []) as Hnil.
    { induction l as [|w l IH]; by simpl. }
    by rewrite !Hnil, !app_nil_r.
  - destruct (promises s !! i) as [[r w fresh|]|] eqn:Hi; simpl;
      rewrite ?app_nil_r; try done.
    set (s0 := if fresh then _ else s).
    assert (shown s0 = shown s) as Hs0.
    { subst s0. destruct fresh; [| done]. rewrite shown_emit. by rewrite app_nil_r. }
    destruct (waiting_showNotification_then r w s0) as (_ & _ & Hs1).
    revert Hs1. generalize (showNotification_then r w s0). intros s1 Hs1.
    change (shown (set_promises ?p ?x)) with (shown x). by rewrite Hs1, Hs0.
  - destruct (promises s !! i) as [[r w fresh|]|] eqn:Hi; try done.
    unfold AnimationQueue.fulfilled.
    destruct (AnimationQueue.queue (animationQueue s)) as [|[r | c event] rest];
      cbn [animate]; [done | |].
    + match goal with
      | |- shown (animate_show r ?x) = _ =>
          by destruct (waiting_animate_show r x) as [_ ->]
      end.
    + match goal with
      | |- shown (animate_close c event ?x) = _ =>
          by destruct (same_waiting_animate_close c event x) as [_ ->]
      end.
  - destruct (list_find _ _) as [[? [? c]]|]; [| done].
    match goal with
    | |- shown (closeNotificationSafely c ?v ?x) = _ =>
        by destruct (same_waiting_closeNotificationSafely c v x) as [_ ->]
    end.
  - destruct (handles s !! k); [| done].
    by destruct (same_waiting_closeNotificationSafely c reason s) as [_ ->].
  - destruct (w <? nextWindow s); [| done]. unfold ipc_close. cbv zeta.
    match goal with
    | |- shown (closeNotificationSafely ?c ?v s) = _ =>
        by destruct (same_waiting_closeNotificationSafely c v s) as [_ ->]
    end.
  - destruct (w <? nextWindow s); [| done].
    assert (same_waiting s (ipc_click w r s)) as [_ Hb]; [| exact Hb].
    unfold ipc_click. waiting_chain.
Qed.

Lemma displays_snoc es e s :
  displays (es ++ [e]) s = displays es s ++ put_on_display e (run es s).
Proof.
  revert s. induction es as [|e' es IH]; intros s; simpl.
  - by rewrite app_nil_r.
  - by rewrite IH, app_assoc.
Qed.

(** As long as [closeAll] is not called, every request that [notify]
    accepted is in exactly one place, and none is lost or shown twice:
    the accepted requests are, up to their order, those that were put
    on display so far, the one that waits for its window, those in the
    overflow queue and those whose show task waits in the animation
    queue.  The windows shown are those of the requests put on display,
    one each, in that order. *)
Theorem every_request_is_accounted_for h hp es :
  existsb is_closeAll es = false →
  let s := run es (init h hp) in
  let d := displays es (init h hp) in
  submitted es ≡ₚ d.*1 ++ awaited s ++ notificationQueue s ++ queued s
  ∧ shown s = d.*2
  ∧ accounted s = valid_calls es.
Proof.
  intros Hes. cbv zeta. split; [| split].
  - change (submitted es ≡ₚ (displays es (init h hp)).*1
                            ++ waiting (run es (init h hp))).
    induction es as [|e es IH] using rev_ind; [done |].
    rewrite existsb_app, orb_false_iff in Hes. destruct Hes as [Hes He].
    simpl in He. rewrite orb_false_r in He.
    rewrite run_step, displays_snoc, fmap_app. unfold submitted in *.
    rewrite omap_app, (IH Hes), <- !app_assoc.
    apply Permutation_app_head. symmetry. by apply waiting_step.
  - clear Hes. induction es as [|e es IH] using rev_ind; [done |].
    by rewrite run_step, displays_snoc, fmap_app, shown_step, IH.
  - induction es as [|e es IH] using rev_ind; [done |].
    rewrite existsb_app, orb_false_iff in Hes. destruct Hes as [Hes He].
    simpl in He. rewrite orb_false_r in He. rewrite run_step.
    pose proof (accounted_step e (run es (init h hp))) as Hstep.
    rewrite He, (IH Hes) in Hstep.
    unfold valid_calls in *. rewrite List.filter_app, length_app. simpl.
    destruct (is_valid_call e); simpl; lia.
Qed.

(** Three requests on a display with one slot: the first is shown and
    closed by its timer, the second is shown after it, the third waits
    in the overflow queue. *)
Lemma every_request_is_accounted_for_witness :
  let es := [Notify [VObj 7]; WindowReady 0; TaskDone 0;
             Notify [VObj 5]; Notify [VObj 9]; TaskDone 0; TaskDone 0;
             Timeout 0; TaskDone 0; WindowReady 0] in
  let s := run es (init 100 ∅) in
  existsb is_closeAll es = false
  ∧ displays es (init 100 ∅) = [(7, 0); (5, 0)]
  ∧ notificationQueue s = [9]
  ∧ submitted es
    ≡ₚ (displays es (init 100 ∅)).*1
       ++ awaited s ++ notificationQueue s ++ queued s.
Proof.
  intros es s. split; [reflexivity |].
  split; [vm_compute; reflexivity |]. split; [vm_compute; reflexivity |].
  exact (proj1 (every_request_is_accounted_for 100 ∅ es eq_refl)).
Defined.

(** No request is ever counted twice, and [closeAll] loses exactly the
    requests whose show task still waits in the animation queue: they
    are never shown, while the requests in the overflow queue and the
    one waiting for its window are kept. *)
Theorem closeAll_loses_queued_show_tasks h hp es :
  let s := run es (init h hp) in
  accounted s ≤ valid_calls es
  ∧ accounted (closeAll s) + queued_shows s = accounted s
  ∧ queued_shows (closeAll s) = 0
  ∧ awaiting (closeAll s) = awaiting s
  ∧ notificationQueue (closeAll s) = notificationQueue s.
Proof.
  intros s. split.
  - subst s. induction es as [|e es IH] using rev_ind; [done |].
    rewrite run_step.
    pose proof (accounted_step e (run es (init h hp))) as Hstep.
    unfold valid_calls in *. rewrite List.filter_app, length_app. simpl.
    destruct (is_valid_call e); simpl; lia.
  - split; [apply accounted_closeAll |].
    unfold closeAll. cbv zeta. rewrite !foldl_WinClose. done.
Qed.

(** ** What one close does *)

Lemma indexOf_range w l : (-1 ≤ indexOf w l < Z.of_nat (length l))%Z.
Proof.
  induction l as [|x l IH]; simpl; [lia |].
  destruct (Nat.eqb x w); [lia |].
  destruct (Z.ltb_spec (indexOf w l) 0); lia.
Qed.

Lemma indexOf_missing_iff w l : indexOf w l = (-1)%Z ↔ w ∉ l.
Proof.
  induction l as [|x l IH]; simpl.
  - split; [intros _; apply not_elem_of_nil | done].
  - rewrite not_elem_of_cons. destruct (Nat.eqb_spec x w) as [-> | Hne].
    + split; [lia | intros [? _]; done].
    + pose proof (indexOf_range w l).
      destruct (Z.ltb_spec (indexOf w l) 0).
      * split; [intros _; split; [done |]; apply IH; lia | done].
      * split; [lia |]. intros [_ Hnot]. apply IH in Hnot. lia.
Qed.

Lemma indexOf_lookup w l :
  w ∈ l →
  (0 ≤ indexOf w l)%Z ∧ l !! Z.to_nat (indexOf w l) = Some w.
Proof.
  induction l as [|x l IH]; [by intros ?%elem_of_nil |].
  intros Hin. simpl. destruct (Nat.eqb_spec x w) as [-> | Hne]; [done |].
  apply elem_of_cons in Hin as [-> | Hin]; [done |].
  destruct (IH Hin) as [H0 Hl].
  destruct (Z.ltb_spec (indexOf w l) 0); [lia |].
  split; [lia |]. by rewrite Z2Nat.inj_add, Nat.add_comm by lia.
Qed.

Lemma delete_last (l : list nat) : delete (length l - 1) l = removelast l.
Proof.
  induction l as [|x l IH]; [done |].
  destruct l as [|y l]; [done |].
  change (length (x :: y :: l) - 1) with (S (length l)).
  change (delete (S (length l)) (x :: y :: l))
    with (x :: delete (length l) (y :: l)).
  replace (length l) with (length (y :: l) - 1) by (simpl; lia).
  by rewrite IH.
Qed.

Lemma splice1_removelast l : splice1 (-1) l = removelast l.
Proof.
  unfold splice1. change (-1 <? 0)%Z with true. cbv iota.
  replace (Z.to_nat (Z.max (Z.of_nat (length l) + -1) 0)) with (length l - 1)
    by lia.
  apply delete_last.
Qed.

Lemma splice1_inside_length w l :
  w ∈ l → S (length (splice1 (indexOf w l) l)) = length l
          ∧ splice1 (indexOf w l) l = delete (Z.to_nat (indexOf w l)) l.
Proof.
  intros Hin. destruct (indexOf_lookup w l Hin) as [H0 Hl].
  pose proof (indexOf_range w l).
  assert (splice1 (indexOf w l) l = delete (Z.to_nat (indexOf w l)) l) as ->.
  { unfold splice1. destruct (Z.ltb_spec (indexOf w l) 0); [lia |].
    by rewrite Z.min_l by lia. }
  split; [| done]. rewrite length_delete by eauto.
  apply lookup_lt_Some in Hl. lia.
Qed.

(** [checkForQueuedNotifications] while a task runs: the head of the
    overflow queue becomes a show task at the end of the animation
    queue when the active list is below the limit. *)
Lemma checkForQueuedNotifications_running s :
  AnimationQueue.running (animationQueue s) = true →
  checkForQueuedNotifications s
  = match notificationQueue s with
    | r :: rest =>
        if (Z.of_nat (length (activeNotifications s))
              <? maxVisibleNotifications (config s))%Z
        then set_animationQueue
               (AnimationQueue.mk
                  (AnimationQueue.queue (animationQueue s) ++ [Show r]) true)
               (set_notificationQueue rest s)
        else s
    | [] => s
    end.
Proof.
  intros Hr. unfold checkForQueuedNotifications, push_show, AnimationQueue.push.
  destruct (notificationQueue s); [done |]. case_match; [| done].
  simpl. by rewrite Hr.
Qed.

(** The state just before [checkForQueuedNotifications] in a first
    close. *)
Lemma closeFunc_unfold c event s :
  is_closed (notificationObj c) s = false →
  ∃ s1,
    closeFunc c event s = checkForQueuedNotifications s1
    ∧ config s1 = config s
    ∧ animationQueue s1 = animationQueue s
    ∧ promises s1 = promises s
    ∧ notificationQueue s1 = notificationQueue s
    ∧ nextWindow s1 = nextWindow s
    ∧ handles s1 = handles s
    ∧ activeNotifications s1
      = splice1 (indexOf (notificationWindow c) (activeNotifications s))
          (activeNotifications s)
    ∧ inactiveWindows s1 = inactiveWindows s ++ [notificationWindow c]
    ∧ timers s1
      = match getTimeoutId c with
        | Some t => filter (fun p => fst p ≠ t) (timers s)
        | None => timers s
        end
    ∧ ∃ l, trace s1 = trace s ++ l
           ∧ Send (notificationWindow c) "node-desktop-notification-reset" ∈ l
           ∧ Hide (notificationWindow c) ∈ l
           ∧ ∀ w, Hide w ∈ l → w = notificationWindow c.
Proof.
  intros Hc. unfold is_closed in Hc. unfold closeFunc. cbv zeta. rewrite Hc.
  eexists. split; [reflexivity |].
  unfold clearTimeout, set_field.
  destruct (truthy (get_field _ "onCloseFunc" _)), (getTimeoutId c); simpl;
    (repeat split; try done);
    (eexists; split; [by rewrite <- ?app_assoc |]);
    (split; [set_solver |]); (split; [set_solver |]);
    intros w Hw;
    repeat (apply elem_of_cons in Hw as [Hw | Hw]; [by simplify_eq |]);
    by apply elem_of_nil in Hw.
Qed.

Lemma timers_checkForQueuedNotifications s :
  timers (checkForQueuedNotifications s) = timers s.
Proof.
  unfold checkForQueuedNotifications, push_show, AnimationQueue.push,
    animate_show, showNotification, getWindow.
  repeat case_match; simplify_eq; done.
Qed.

(** The first close through a close function that knows its timer (the
    one built in [showNotification]) disarms exactly that timer and
    leaves every other timer armed. *)
Theorem first_close_cancels_its_own_timer c t event s :
  getTimeoutId c = Some t →
  is_closed (notificationObj c) s = false →
  timers (closeFunc c event s) = filter (fun p => fst p ≠ t) (timers s)
  ∧ (∀ c', (t, c') ∉ timers (closeFunc c event s))
  ∧ ∀ t' c', t' ≠ t → (t', c') ∈ timers s →
             (t', c') ∈ timers (closeFunc c event s).
Proof.
  intros Ht Hc.
  destruct (closeFunc_unfold c event s Hc) as (s1 & -> & _ & _ & _ & _ & _ & _ & _ & _ & Htm & _).
  rewrite timers_checkForQueuedNotifications, Htm, Ht.
  split; [done |]. split.
  - intros c' Hin. apply list_elem_of_filter in Hin as [Hne _]. done.
  - intros t' c' Hne Hin. by apply list_elem_of_filter.
Qed.

Lemma first_close_cancels_its_own_timer_witness :
  let s := run [Notify [VObj 0]; WindowReady 0; TaskDone 0;
                Notify [VObj 1]; WindowReady 0; TaskDone 0] (init 1000 ∅) in
  let c := Closer 0 0 (Some 0) in
  timers s = [(0, Closer 0 0 (Some 0)); (1, Closer 1 1 (Some 1))]
  ∧ timers (closeFunc c (VStr "timeout") s) = [(1, Closer 1 1 (Some 1))].
Proof.
  intros s c. split; [vm_compute; reflexivity |].
  destruct (first_close_cancels_its_own_timer c 0 (VStr "timeout") s eq_refl)
    as [Heq _]; [vm_compute; reflexivity |].
  rewrite Heq. vm_compute; reflexivity.
Defined.

(** A first close that runs as a task on a window of the active list:
    the window leaves the list (which gets one shorter) and joins the
    pool, and when a request waits in the overflow queue of a list that
    was not over the limit, that request leaves the overflow queue and
    its show task is appended to the animation queue. *)
Theorem close_admits_head_of_overflow_queue c event s q rest :
  AnimationQueue.running (animationQueue s) = true →
  is_closed (notificationObj c) s = false →
  notificationWindow c ∈ activeNotifications s →
  (Z.of_nat (length (activeNotifications s))
     ≤ maxVisibleNotifications (config s))%Z →
  notificationQueue s = q :: rest →
  let s' := closeFunc c event s in
  notificationQueue s' = rest
  ∧ AnimationQueue.queue (animationQueue s')
    = AnimationQueue.queue (animationQueue s) ++ [Show q]
  ∧ activeNotifications s'
    = delete (Z.to_nat (indexOf (notificationWindow c) (activeNotifications s)))
        (activeNotifications s)
  ∧ S (length (activeNotifications s')) = length (activeNotifications s)
  ∧ inactiveWindows s' = inactiveWindows s ++ [notificationWindow c]
  ∧ promises s' = promises s.
Proof.
  intros Hr Hc Hin Hlen Hq s'. subst s'.
  destruct (closeFunc_unfold c event s Hc)
    as (s1 & -> & Hcfg & Haq & Hp & Hnq & _ & _ & Hact & Hina & _).
  destruct (splice1_inside_length _ _ Hin) as [Hl Hd].
  rewrite checkForQueuedNotifications_running by (by rewrite Haq).
  rewrite Hnq, Hq, Hcfg, Hact.
  destruct (Z.ltb_spec (Z.of_nat (length (splice1 (indexOf (notificationWindow c)
              (activeNotifications s)) (activeNotifications s))))
              (maxVisibleNotifications (config s))); [| lia].
  simpl. by rewrite Haq, Hact, Hina, Hp, <- Hd.
Qed.

Lemma close_admits_head_of_overflow_queue_witness :
  let s := run [Notify [VObj 0]; WindowReady 0; TaskDone 0;
                Notify [VObj 1]; TaskDone 0; Notify [VObj 2]] (init 100 ∅) in
  let s' := closeFunc (Closer 0 0 (Some 0)) (VStr "timeout") s in
  notificationQueue s = [1; 2]
  ∧ notificationQueue s' = [2]
  ∧ AnimationQueue.queue (animationQueue s') = [Show 1]
  ∧ activeNotifications s' = [].
Proof.
  intros s s'. subst s'.
  assert (notificationQueue s = [1; 2]) as Hq by (vm_compute; reflexivity).
  assert (activeNotifications s = [0]) as Ha by (vm_compute; reflexivity).
  assert (maxVisibleNotifications (config s) = 1%Z) as Hm
    by (vm_compute; reflexivity).
  split; [exact Hq |].
  destruct (close_admits_head_of_overflow_queue
              (Closer 0 0 (Some 0)) (VStr "timeout") s 1 [2])
    as (H1 & H2 & H3 & _).
  - vm_compute; reflexivity.
  - vm_compute; reflexivity.
  - rewrite Ha. apply list_elem_of_singleton. reflexivity.
  - rewrite Ha, Hm. simpl. lia.
  - exact Hq.
  - split; [exact H1 |]. split; [rewrite H2; vm_compute; reflexivity |].
    rewrite H3, Ha. reflexivity.
Defined.

(** A first close on a window that is not in the active list (a second
    close of a notification through another object, for one): [indexOf]
    gives -1 and [splice(-1, 1)] takes the last window off the active
    list; that window is neither hidden nor pooled, while the window of
    the close, already in the pool or not, is pushed on the pool. *)
Theorem close_of_inactive_window_drops_last_active c event s :
  AnimationQueue.running (animationQueue s) = true →
  is_closed (notificationObj c) s = false →
  notificationWindow c ∉ activeNotifications s →
  let s' := closeFunc c event s in
  activeNotifications s' = removelast (activeNotifications s)
  ∧ inactiveWindows s' = inactiveWindows s ++ [notificationWindow c]
  ∧ ∃ l, trace s' = trace s ++ l
         ∧ ∀ w, Hide w ∈ l → w = notificationWindow c.
Proof.
  intros Hr Hc Hnot s'. subst s'.
  destruct (closeFunc_unfold c event s Hc)
    as (s1 & -> & _ & Haq & _ & _ & _ & _ & Hact & Hina & _ & l & Htr & _ & _ & Hh).
  apply indexOf_missing_iff in Hnot. rewrite Hnot, splice1_removelast in Hact.
  rewrite checkForQueuedNotifications_running by (by rewrite Haq).
  repeat case_match; simpl; rewrite ?Hact, ?Hina, ?Htr; eauto.
Qed.

Lemma close_of_inactive_window_drops_last_active_witness :
  let s := run [Notify [VObj 0]; WindowReady 0; TaskDone 0;
                IpcClose 0 0; TaskDone 0;
                Notify [VObj 1]; WindowReady 0; TaskDone 0;
                Notify [VObj 2]; WindowReady 0] (init 1000 ∅) in
  let s' := closeFunc (Closer 5 3 None) (VStr "close") s in
  activeNotifications s = [0; 1]
  ∧ activeNotifications s' = [0]
  ∧ inactiveWindows s' = [5].
Proof.
  intros s s'. subst s'.
  assert (activeNotifications s = [0; 1]) as Ha by (vm_compute; reflexivity).
  split; [exact Ha |].
  destruct (close_of_inactive_window_drops_last_active
              (Closer 5 3 None) (VStr "close") s) as (H1 & H2 & _).
  - vm_compute; reflexivity.
  - vm_compute; reflexivity.
  - rewrite Ha. simpl. intros Hin.
    apply elem_of_cons in Hin as [? | Hin]; [done |].
    apply elem_of_cons in Hin as [? | Hin]; [done |].
    by apply elem_of_nil in Hin.
  - split; [rewrite H1, Ha; reflexivity |]. rewrite H2.
    vm_compute; reflexivity.
Defined.

(** The window that a close releases is the one the next [getWindow]
    hands out, without a window being created: the pool is used last
    in, first out. *)
Theorem released_window_is_reused_first c event s :
  AnimationQueue.running (animationQueue s) = true →
  is_closed (notificationObj c) s = false →
  let s' := closeFunc c event s in
  (getWindow s').1.1 = notificationWindow c
  ∧ (getWindow s').1.2 = false
  ∧ nextWindow (getWindow s').2 = nextWindow s
  ∧ inactiveWindows (getWindow s').2 = inactiveWindows s
  ∧ trace (getWindow s').2 = trace s'.
Proof.
  intros Hr Hc s'. subst s'.
  destruct (closeFunc_unfold c event s Hc)
    as (s1 & -> & _ & Haq & _ & _ & Hnw & _ & _ & Hina & _).
  rewrite checkForQueuedNotifications_running by (by rewrite Haq).
  unfold getWindow.
  repeat case_match; simpl in *; simplify_eq;
    rewrite ?Hina, ?last_snoc in *; simplify_eq;
    rewrite ?removelast_last; done.
Qed.

Lemma released_window_is_reused_first_witness :
  let s := run [Notify [VObj 0]; WindowReady 0; TaskDone 0;
                Notify [VObj 1]; WindowReady 0] (init 1000 ∅) in
  let s' := closeFunc (Closer 0 0 (Some 0)) (VStr "timeout") s in
  AnimationQueue.running (animationQueue s) = true
  ∧ (getWindow s').1.1 = 0
  ∧ (getWindow s').1.2 = false.
Proof.
  intros s s'. subst s'. split; [vm_compute; reflexivity |].
  destruct (released_window_is_reused_first
              (Closer 0 0 (Some 0)) (VStr "timeout") s) as (H1 & H2 & _).
  - vm_compute; reflexivity.
  - vm_compute; reflexivity.
  - split; [exact H1 | exact H2].
Defined.

(** ** The reason of a close and timers after closeAll *)

(** The reason handed to [closeNotification] is what [onCloseFunc]
    receives; only [undefined] is replaced by 'closedByAPI' ([null], the
    empty string or 0 are passed on as they are).  On an idle queue the
    close runs at once; while a task runs it is only queued, with that
    reason, and nothing is called yet. *)
Theorem close_reason_reaches_onCloseFunc c reason s :
  is_closed (notificationObj c) s = false →
  truthy (get_field (notificationObj c) "onCloseFunc" s) = true →
  let r := notificationObj c in
  let reason' :=
    match reason with VUndefined => VStr "closedByAPI" | _ => reason end in
  let s' := closeNotificationSafely c reason s in
  if AnimationQueue.running (animationQueue s)
  then AnimationQueue.queue (animationQueue s')
       = AnimationQueue.queue (animationQueue s) ++ [Close c reason']
       ∧ onClose_calls r s' = onClose_calls r s
       ∧ is_closed r s' = false
  else onClose_calls r s' = onClose_calls r s ++ [reason']
       ∧ is_closed r s' = true.
Proof.
  intros Hc Hf r reason' s'. subst s'.
  unfold closeNotificationSafely, AnimationQueue.push. cbv zeta. fold reason'.
  destruct (AnimationQueue.running (animationQueue s)) eqn:Hr; [done |].
  set (s0 := set_animationQueue _ s).
  destruct (closeFunc_first c reason' s0 Hc) as [Hc1 Ho1].
  change (get_field (notificationObj c) "onCloseFunc" s0)
    with (get_field (notificationObj c) "onCloseFunc" s) in Ho1.
  rewrite Hf in Ho1. split; [exact Ho1 | exact Hc1].
Qed.

Lemma close_reason_reaches_onCloseFunc_witness :
  let hp : gmap nat (gmap string val) :=
    {[ 0 := {[ "onCloseFunc" := VFun 0; "onShowFunc" := VFun 1 ]} ]} in
  let s := run [Notify [VObj 0]; WindowReady 0; TaskDone 0] (init 1000 hp) in
  let c := Closer 0 0 (Some 0) in
  is_closed 0 s = false
  ∧ onClose_calls 0 (closeNotificationSafely c VUndefined s) = [VStr "closedByAPI"]
  ∧ onClose_calls 0 (closeNotificationSafely c VNull s) = [VNull].
Proof.
  intros hp s c.
  assert (is_closed 0 s = false) as Hc by (vm_compute; reflexivity).
  assert (truthy (get_field 0 "onCloseFunc" s) = true) as Hf
    by (vm_compute; reflexivity).
  assert (AnimationQueue.running (animationQueue s) = false) as Hr
    by (vm_compute; reflexivity).
  assert (onClose_calls 0 s = []) as Ho by (vm_compute; reflexivity).
  split; [exact Hc |].
  pose proof (close_reason_reaches_onCloseFunc c VUndefined s Hc Hf) as H1.
  pose proof (close_reason_reaches_onCloseFunc c VNull s Hc Hf) as H2.
  cbv zeta in H1, H2. rewrite Hr in H1, H2.
  destruct H1 as [H1 _], H2 as [H2 _].
  change (notificationObj c) with 0 in H1, H2. rewrite Ho in H1, H2.
  split; [exact H1 | exact H2].
Defined.

Lemma onClose_calls_closeAll r s : onClose_calls r (closeAll s) = onClose_calls r s.
Proof.
  unfold closeAll. cbv zeta. rewrite !foldl_WinClose.
  unfold onClose_calls. simpl. rewrite !omap_app.
  assert (∀ l : list nat,
            omap (fun o => match o with
                           | OnClose r' event _ =>
                               if Nat.eqb r' r then Some event else None
                           | _ => None
                           end) (WinClose <$> l) = []) as Hnil.
  { induction l as [|w l IH]; by simpl. }
  by rewrite !Hnil, !app_nil_r.
Qed.

(** [closeAll] cancels no timer.  The timer of a notification that was
    on display when [closeAll] ran still fires afterwards: the
    notification is closed with reason 'timeout', its [onCloseFunc] is
    called, and its window, on which [close()] has been called, is put
    into the pool, from where the next notification will take it. *)
Theorem closeAll_leaves_timers_armed s t c i :
  list_find (fun p => fst p = t) (timers s) = Some (i, (t, c)) →
  is_closed (notificationObj c) s = false →
  AnimationQueue.running (animationQueue s) = false →
  notificationWindow c ∈ activeNotifications s →
  let r := notificationObj c in
  let s1 := closeAll s in
  let s2 := step (Timeout t) s1 in
  timers s1 = timers s
  ∧ notificationWindow c ∈ destroyed s1
  ∧ is_closed r s2 = true
  ∧ onClose_calls r s2
    = onClose_calls r s
      ++ (if truthy (get_field r "onCloseFunc" s) then [VStr "timeout"] else [])
  ∧ inactiveWindows s2 = [notificationWindow c]
  ∧ (getWindow s2).1.1 = notificationWindow c.
Proof.
  intros Hfind Hc Hr Hin r s1 s2.
  assert (timers s1 = timers s ∧ heap s1 = heap s
          ∧ AnimationQueue.running (animationQueue s1) = false
          ∧ inactiveWindows s1 = []
          ∧ destroyed s1 = destroyed s ++ activeNotifications s ++ inactiveWindows s)
    as (Ht1 & Hh1 & Hr1 & Hi1 & Hd1).
  { subst s1. unfold closeAll. cbv zeta. rewrite !foldl_WinClose. simpl.
    repeat split; try done.
    unfold destroyed. simpl. rewrite !omap_app, <- app_assoc.
    by rewrite !omap_WinClose. }
  split; [exact Ht1 |].
  split; [rewrite Hd1; set_solver |].
  subst s2. unfold step. rewrite Ht1, Hfind.
  unfold closeNotificationSafely, AnimationQueue.push. cbv zeta.
  cbn [animationQueue set_timers]. rewrite Hr1.
  set (s0 := set_animationQueue _ _).
  assert (is_closed r s0 = false) as Hc0.
  { unfold is_closed, get_field, get_obj. subst s0. cbn [heap set_animationQueue set_timers].
    rewrite Hh1. exact Hc. }
  destruct (closeFunc_first c (VStr "timeout") s0 Hc0) as [Hc2 Ho2].
  fold r in Hc2, Ho2.
  assert (onClose_calls r s0 = onClose_calls r s) as Ho0.
  { transitivity (onClose_calls r s1); [done | apply onClose_calls_closeAll]. }
  assert (get_field r "onCloseFunc" s0 = get_field r "onCloseFunc" s) as Hf0.
  { unfold get_field, get_obj. subst s0. cbn [heap set_animationQueue set_timers].
    by rewrite Hh1. }
  rewrite Ho0, Hf0 in Ho2.
  split; [exact Hc2 |]. split; [exact Ho2 |].
  assert (inactiveWindows (animate_close c (VStr "timeout") s0)
          = [notificationWindow c]) as Hpool.
  { unfold animate_close. cbv zeta. cbn [inactiveWindows set_promises].
    destruct (closeFunc_unfold c (VStr "timeout") s0 Hc0)
      as (sx & -> & _ & Haq & _ & _ & _ & _ & _ & Hina & _).
    rewrite checkForQueuedNotifications_running by (by rewrite Haq).
    destruct (notificationQueue sx); [| destruct (_ <? _)%Z]; simpl;
      rewrite Hina; subst s0; simpl; by rewrite ?Hi1. }
  split; [exact Hpool |].
  unfold getWindow. by rewrite Hpool.
Qed.

Lemma closeAll_leaves_timers_armed_witness :
  let hp : gmap nat (gmap string val) := {[ 0 := {[ "onCloseFunc" := VFun 0 ]} ]} in
  let s := run [Notify [VObj 0]; WindowReady 0; TaskDone 0] (init 1000 hp) in
  let s2 := step (Timeout 0) (closeAll s) in
  is_closed 0 s = false
  ∧ destroyed (closeAll s) = [0]
  ∧ onClose_calls 0 s2 = [VStr "timeout"]
  ∧ inactiveWindows s2 = [0].
Proof.
  intros hp s s2. subst s2.
  assert (is_closed 0 s = false) as Hc by (vm_compute; reflexivity).
  assert (activeNotifications s = [0]) as Ha by (vm_compute; reflexivity).
  split; [exact Hc |]. split; [vm_compute; reflexivity |].
  destruct (closeAll_leaves_timers_armed s 0 (Closer 0 0 (Some 0)) 0)
    as (_ & _ & _ & Ho & Hp & _).
  - vm_compute; reflexivity.
  - exact Hc.
  - vm_compute; reflexivity.
  - rewrite Ha. apply list_elem_of_singleton. reflexivity.
  - split; [| exact Hp].
    etransitivity; [exact Ho |]. vm_compute; reflexivity.
Defined.

(** ** Geometry *)

Lemma load_fields d :
  let c := (Geometry.load d).1 in
  Geometry.height c = config_height
  ∧ Geometry.padding c = config_padding
  ∧ Geometry.totalHeight c = totalHeight
  ∧ Geometry.totalWidth c = (300 + config_padding)%Z
  ∧ Geometry.y (Geometry.lowerRightCorner c)
    = (Geometry.y (Geometry.bounds d) + Geometry.y (Geometry.workArea d)
       + Geometry.workAreaSize_height d)%Z
  ∧ Geometry.x (Geometry.lowerRightCorner c)
    = (Geometry.x (Geometry.bounds d) + Geometry.x (Geometry.workArea d)
       + Geometry.workAreaSize_width d)%Z
  ∧ Geometry.maxVisibleNotifications c
    = maxVisible (Geometry.workAreaSize_height d)
  ∧ (Geometry.load d).2
    = Geometry.InsertPos
        (Some (Geometry.x (Geometry.lowerRightCorner c) - (300 + config_padding))%Z)
        (Some (Geometry.y (Geometry.lowerRightCorner c) - totalHeight)%Z).
Proof. done. Qed.

(** With the configuration the module loads, every notification that
    [showNotification] admits is placed inside the work area: its
    window, [height] high, starts at or below the top of the work area
    and ends at least [padding] above its bottom, and it ends [padding]
    left of the right edge. *)
Theorem admitted_slot_lies_in_work_area d (n : nat) :
  let c := (Geometry.load d).1 in
  let top := (Geometry.y (Geometry.bounds d) + Geometry.y (Geometry.workArea d))%Z in
  let bottom := (top + Geometry.workAreaSize_height d)%Z in
  let right :=
    (Geometry.x (Geometry.bounds d) + Geometry.x (Geometry.workArea d)
     + Geometry.workAreaSize_width d)%Z in
  (Z.of_nat n < Geometry.maxVisibleNotifications c)%Z →
  ∃ xv yv,
    Geometry.calcInsertPos c n (Geometry.load d).2
    = Geometry.InsertPos (Some xv) (Some yv)
    ∧ (top ≤ yv)%Z
    ∧ (yv + Geometry.height c + Geometry.padding c ≤ bottom)%Z
    ∧ (xv + Geometry.width c + Geometry.padding c = right)%Z.
Proof.
  intros c top bottom right Hn.
  destruct (load_fields d) as (Hh & Hp & Hth & Htw & Hy & Hx & Hm & Hnip).
  fold c in Hh, Hp, Hth, Htw, Hy, Hx, Hm, Hnip.
  unfold Geometry.calcInsertPos.
  destruct (Z.ltb_spec (Z.of_nat n) (Geometry.maxVisibleNotifications c)); [| lia].
  rewrite Hnip. cbn [Geometry.ix]. do 2 eexists. split; [reflexivity |].
  assert (0 ≤ Z.of_nat n)%Z by lia.
  rewrite Hm, maxVisible_min in Hn. rewrite Hy, Hth, Hh, Hp, Hx.
  assert (Geometry.width c = 300%Z) as -> by done.
  set (h := Geometry.workAreaSize_height d) in *.
  assert (totalHeight * (h / totalHeight) ≤ h)%Z as Hdiv
    by (apply Z.mul_div_le; by vm_compute).
  unfold totalHeight, config_height, config_padding in *.
  subst top bottom right. fold h. nia.
Qed.

Lemma admitted_slot_lies_in_work_area_witness :
  let d := Geometry.Display (Geometry.Point 0 0) (Geometry.Point 0 23) 1920 1057 in
  (Z.of_nat 6 < Geometry.maxVisibleNotifications (Geometry.load d).1)%Z
  ∧ ∃ xv yv,
      Geometry.calcInsertPos (Geometry.load d).1 6 (Geometry.load d).2
      = Geometry.InsertPos (Some xv) (Some yv)
      ∧ (23 ≤ yv)%Z.
Proof.
  intros d.
  assert (Z.of_nat 6 < Geometry.maxVisibleNotifications (Geometry.load d).1)%Z
    as Hn by (vm_compute; reflexivity).
  split; [exact Hn |].
  destruct (admitted_slot_lies_in_work_area d 6 Hn) as (xv & yv & Heq & Htop & _).
  exists xv, yv. split; [exact Heq | exact Htop].
Defined.

(** The place [calcInsertPos] gives to a new notification on an active
    list of length n is the place the cascade gives to index n; the
    places are one total height (height plus padding) apart, index 0 at
    [firstPos]; and on a full list [calcInsertPos] changes nothing.
    This holds for the configuration that any [calcDimensions] leaves. *)
Theorem insert_position_is_next_cascade_slot c0 p0 (n : nat) i p :
  let c := (Geometry.calcDimensions c0 p0).1 in
  (if (Z.of_nat n <? Geometry.maxVisibleNotifications c)%Z
   then Geometry.calcInsertPos c n p
        = Geometry.InsertPos (Geometry.ix p) (Some (Geometry.newY c (Z.of_nat n)))
   else Geometry.calcInsertPos c n p = p)
  ∧ (Geometry.newY c i - Geometry.newY c (i + 1)
     = Geometry.height c0 + Geometry.padding c0)%Z
  ∧ Geometry.newY c 0 = Geometry.y (Geometry.firstPos c)
  ∧ (Geometry.calcDimensions c0 p0).2
    = Geometry.InsertPos (Some (Geometry.x (Geometry.firstPos c)))
        (Some (Geometry.newY c 0)).
Proof.
  intros c. unfold Geometry.calcInsertPos, Geometry.newY. subst c. simpl.
  split; [by case_match |]. split; [lia |]. split; [f_equal; lia |].
  do 2 f_equal; lia.
Qed.

(** [setConfig] recomputes the total height and width and the first
    position from the new height, width and padding, but not
    [maxVisibleNotifications]: unless the custom configuration gives a
    limit, the one computed at load time for the default slot height
    stays.  The topmost admitted slot then lies above the work area
    exactly when the new total height times the limit exceeds the work
    area height. *)
Theorem setConfig_keeps_maxVisibleNotifications d cu :
  Geometry.c_maxVisibleNotifications cu = None →
  Geometry.c_lowerRightCorner cu = None →
  let c := (Geometry.setConfig cu (Geometry.load d)).1 in
  let h := Geometry.workAreaSize_height d in
  let top := (Geometry.y (Geometry.bounds d) + Geometry.y (Geometry.workArea d))%Z in
  Geometry.maxVisibleNotifications c = maxVisible h
  ∧ Geometry.totalHeight c
    = (default config_height (Geometry.c_height cu)
       + default config_padding (Geometry.c_padding cu))%Z
  ∧ Geometry.totalWidth c
    = (default 300 (Geometry.c_width cu)
       + default config_padding (Geometry.c_padding cu))%Z
  ∧ ((Geometry.newY c (maxVisible h - 1) < top)%Z
     ↔ (h < Geometry.totalHeight c * maxVisible h)%Z).
Proof.
  intros Hm Hl c h top. subst c.
  unfold Geometry.setConfig, Geometry.defaults, Geometry.newY. simpl.
  rewrite Hm, Hl. simpl. fold h.
  repeat split; try done; subst top; lia.
Qed.

Lemma setConfig_keeps_maxVisibleNotifications_witness :
  let d := Geometry.Display (Geometry.Point 0 0) (Geometry.Point 0 0) 1920 1080 in
  let cu := Geometry.Custom None (Some 200%Z) None None None None in
  let c := (Geometry.setConfig cu (Geometry.load d)).1 in
  Geometry.c_maxVisibleNotifications cu = None
  ∧ Geometry.maxVisibleNotifications c = 7%Z
  ∧ Geometry.totalHeight c = 210%Z
  ∧ (Geometry.newY c 6 < 0)%Z.
Proof.
  intros d cu c. split; [reflexivity |].
  destruct (setConfig_keeps_maxVisibleNotifications d cu eq_refl eq_refl)
    as (H1 & H2 & _ & H4).
  split; [exact H1 |]. split; [exact H2 |].
  apply H4. vm_compute. reflexivity.
Defined.

(** After [closeAll] the insert position has no x coordinate, and
    [calcInsertPos] only ever writes y: the next notifications are
    positioned with an undefined x until [setConfig] runs
    [calcDimensions] again, which sets both coordinates. *)
Theorem closeAll_forgets_insert_x c (lengths : list nat) cu :
  let after :=
    foldl (fun p n => Geometry.calcInsertPos c n p)
          Geometry.closeAll_nextInsertPos lengths in
  Geometry.ix after = None
  ∧ Geometry.ix (Geometry.setConfig cu (c, after)).2
    = Some (Geometry.x (Geometry.firstPos (Geometry.setConfig cu (c, after)).1)).
Proof.
  intros after. split; [| done]. subst after.
  assert (∀ p, Geometry.ix p = None →
               Geometry.ix (foldl (fun p n => Geometry.calcInsertPos c n p) p lengths)
               = None) as H.
  { induction lengths as [|n l IH]; intros p Hp; [done |].
    simpl. apply IH. unfold Geometry.calcInsertPos. by case_match. }
  by apply H.
Qed.

Lemma ticks_S c startY target (n : nat) :
  Geometry.ticks c startY target (S n)
  = Geometry.tick c startY target (Geometry.ticks c startY target n).
Proof. done. Qed.

Lemma ticks_unfinished c startY target (n : nat) :
  (Z.of_nat n < Geometry.animationSteps c
   ∨ Geometry.animationSteps c < 1)%Z →
  Geometry.curStep (Geometry.ticks c startY target n) = (1 + Z.of_nat n)%Z
  ∧ Geometry.finished (Geometry.ticks c startY target n) = false
  ∧ length (Geometry.moves (Geometry.ticks c startY target n)) = n.
Proof.
  induction n as [|n IH]; intros Hn; [done |].
  destruct IH as (Hc & Hf & Hl); [lia |].
  rewrite ticks_S. unfold Geometry.tick. rewrite Hf, Hc.
  destruct (Z.eqb_spec (1 + Z.of_nat n) (Geometry.animationSteps c)); [lia |].
  simpl. rewrite length_app, Hl. simpl. split; [lia |]. split; [done | lia].
Qed.

(** The move animation: with [animationSteps] at least 1 the interval
    callback calls [setPosition] on each of its first [animationSteps]
    runs, always with x at [firstPos.x] and the last time with exactly
    the target y, then calls [done]; later ticks do nothing.  With
    [animationSteps] below 1 the step counter never meets it: the
    window is moved on every tick for ever and [done] is never called. *)
Theorem move_animation_ends_on_target c startY target (n extra : nat) :
  (if (1 <=? Geometry.animationSteps c)%Z
   then
     Geometry.finished (Geometry.ticks c startY target n)
     = (Geometry.animationSteps c <=? Z.of_nat n)%Z
     ∧ length (Geometry.moves (Geometry.ticks c startY target n))
       = Nat.min n (Z.to_nat (Geometry.animationSteps c))
     ∧ last (Geometry.moves
               (Geometry.ticks c startY target
                  (Z.to_nat (Geometry.animationSteps c) + extra)))
       = Some (Geometry.x (Geometry.firstPos c), Geometry.Exact target)
   else Geometry.finished (Geometry.ticks c startY target n) = false
        ∧ length (Geometry.moves (Geometry.ticks c startY target n)) = n)
  ∧ Forall (fun m => m.1 = Geometry.x (Geometry.firstPos c))
      (Geometry.moves (Geometry.ticks c startY target n)).
Proof.
  split.
  - destruct (Z.leb_spec 1 (Geometry.animationSteps c)) as [Hs | Hs].
    + set (k := Z.to_nat (Geometry.animationSteps c)).
      assert (k = S (k - 1)) as Hk by lia.
      destruct (ticks_unfinished c startY target (k - 1)) as (Hc & Hf & Hl); [lia |].
      assert (Geometry.ticks c startY target k
              = Geometry.Animation (Geometry.curStep (Geometry.ticks c startY target (k - 1))) true
                  (Geometry.moves (Geometry.ticks c startY target (k - 1))
                   ++ [(Geometry.x (Geometry.firstPos c), Geometry.Exact target)]))
        as Hlast.
      { rewrite Hk at 1. rewrite ticks_S. unfold Geometry.tick. rewrite Hf, Hc.
        destruct (Z.eqb_spec (1 + Z.of_nat (k - 1)) (Geometry.animationSteps c));
          [done | lia]. }
      assert (∀ e, Geometry.ticks c startY target (k + e)
                   = Geometry.ticks c startY target k) as Hextra.
      { induction e as [|e IH]; [by rewrite Nat.add_0_r |].
        rewrite Nat.add_succ_r, ticks_S, IH, Hlast. done. }
      assert (length (Geometry.moves (Geometry.ticks c startY target k)) = k) as Hlk.
      { rewrite Hlast. simpl. rewrite length_app, Hl. simpl. lia. }
      split; [| split].
      * destruct (Z.leb_spec (Geometry.animationSteps c) (Z.of_nat n)).
        -- replace n with (k + (n - k)) by lia. rewrite Hextra, Hlast. done.
        -- apply ticks_unfinished. lia.
      * destruct (Nat.le_gt_cases k n).
        -- replace n with (k + (n - k)) at 1 by lia. rewrite Hextra, Hlk. lia.
        -- destruct (ticks_unfinished c startY target n) as (_ & _ & Hn); lia.
      * rewrite Hextra, Hlast. simpl. by rewrite last_snoc.
    + destruct (ticks_unfinished c startY target n) as (_ & Hf & Hl); [lia |].
      done.
  - induction n as [|n IH]; [by apply Forall_nil |].
    rewrite ticks_S. unfold Geometry.tick.
    repeat case_match; try done; simpl; apply Forall_app; split; try done;
      by apply Forall_singleton.
Qed.

(** The cascade after a close.  When the closed window was on the
    active list at index pos, [moveOneDown(pos)] animates exactly the
    indices from pos to the end of the shortened list; these hold the
    windows that were one index higher, each moving one total height
    towards the corner, and the windows below pos keep their index and
    are not moved.  The comparison of [startPos] with the array itself
    never changes that.  When the window was not on the list
    ([indexOf] gives -1) nothing is moved. *)
Theorem cascade_moves_the_windows_above_the_gap w (active : list nat) c (i : nat) :
  let pos := indexOf w active in
  let active' := splice1 pos active in
  if decide (w ∈ active)
  then Geometry.moveOneDown pos active'
       = (fun k => (pos + Z.of_nat k)%Z)
           <$> seq 0 (Z.to_nat (Z.of_nat (length active') - pos))
       ∧ S (length active') = length active
       ∧ (if (Z.of_nat i <? pos)%Z
          then active' !! i = active !! i
          else active' !! i = active !! S i)
       ∧ (Geometry.newY c (Z.of_nat (S i)) + Geometry.totalHeight c
          = Geometry.newY c (Z.of_nat i))%Z
  else Geometry.moveOneDown pos active' = [].
Proof.
  intros pos active'. case_decide as Hin.
  - destruct (indexOf_lookup w active Hin) as [H0 Hl]. fold pos in H0, Hl.
    destruct (splice1_inside_length w active Hin) as [Hlen Hd].
    fold pos in Hlen, Hd. fold active' in Hlen, Hd.
    split; [| split; [done | split]].
    + unfold Geometry.moveOneDown, Geometry.ge_array.
      destruct active' as [|a l] eqn:Ha.
      * destruct (Z.leb_spec 0 pos); [| lia]. simpl.
        by replace (Z.to_nat (Z.of_nat 0 - pos)) with 0 by lia.
      * destruct (Z.eqb_spec pos (-1)); [lia | done].
    + rewrite Hd. destruct (Z.ltb_spec (Z.of_nat i) pos).
      * apply list_lookup_delete_lt. lia.
      * apply list_lookup_delete_ge. lia.
    + unfold Geometry.newY. lia.
  - apply indexOf_missing_iff in Hin. fold pos in Hin.
    unfold Geometry.moveOneDown. rewrite Hin. simpl. by rewrite orb_true_r.
Qed.

(** Four windows, the second one closes: indices 1 and 2 of the new
    list are animated. *)
Example cascade_after_closing_second :
  Geometry.moveOneDown (indexOf 11 [10; 11; 12; 13])
    (splice1 (indexOf 11 [10; 11; 12; 13]) [10; 11; 12; 13]) = [1%Z; 2%Z]
  ∧ splice1 (indexOf 11 [10; 11; 12; 13]) [10; 11; 12; 13] = [10; 12; 13].
Proof. by vm_compute. Qed.

(** ** The template path *)

(** [getTemplatePath] never returns [undefined] and caches its answer:
    a second call returns the same path and leaves the state as it is
    (the missing-template lines are not printed again), whether or not
    the file is found then.  A path given to [setTemplatePath] is what
    the next call returns; giving [undefined] makes the next call
    compute the default path again, which is 'file://' followed by the
    module's notification.html even when that file does not exist. *)
Theorem getTemplatePath_caches_and_defaults file found found' path s :
  let first := Template.getTemplatePath file found s in
  first.1 ≠ VUndefined
  ∧ Template.templatePath first.2 = first.1
  ∧ Template.getTemplatePath file found' first.2 = first
  ∧ match path with
    | VUndefined =>
        Template.getTemplatePath file found (Template.setTemplatePath path s)
        = Template.updateTemplatePath file found s
    | _ =>
        Template.getTemplatePath file found (Template.setTemplatePath path s)
        = (path, Template.setTemplatePath path s)
    end
  ∧ (Template.updateTemplatePath file found s).1 = VStr ("file://" ++ file)
  ∧ length (Template.printed (Template.updateTemplatePath file found s).2)
    = length (Template.printed s)
      + (if found then 0 else if Template.logging s then 2 else 0).
Proof.
  intros first. subst first.
  unfold Template.getTemplatePath, Template.updateTemplatePath,
    Template.setTemplatePath, Template.log.
  split; [by destruct (Template.templatePath s) |].
  split; [by destruct (Template.templatePath s) eqn:E |].
  split; [by destruct (Template.templatePath s) eqn:E; simpl; rewrite ?E |].
  split.
  - destruct path; try done.
    destruct found; [done |]. simpl.
    destruct (Template.logging s) eqn:Hl; simpl; by rewrite ?Hl.
  - split; [done |].
    destruct found, (Template.logging s) eqn:Hl; simpl; rewrite ?Hl; simpl;
      rewrite ?length_app; simpl; lia.
Qed.

(** ** The window's side *)

Lemma setContents_Some o d :
  Preload.play_sound (prop o "sound") (Preload.played d) ≠ None →
  ∃ d', Preload.setContents o d = Some d'
        ∧ Preload.listeners (Preload.close d')
          = Preload.listeners (Preload.close d) ++ [Preload.CloseClicked o]
        ∧ Preload.listeners (Preload.container d')
          = Preload.listeners (Preload.container d) ++ [Preload.ContainerClicked o]
        ∧ Preload.innerHTML (Preload.title d') = Preload.or_empty (prop o "title")
        ∧ Preload.innerHTML (Preload.message d') = Preload.or_empty (prop o "text").
Proof.
  intros Hs. unfold Preload.setContents.
  destruct (Preload.play_sound _ _); [| done]. eexists. split; [reflexivity |].
  done.
Qed.

(** [reset] undoes the listeners of [setContents]: when a window that
    was reset renders a notification, a click on its close button sends
    exactly one close message, and a click elsewhere exactly one click
    message, both with that notification.  Without a reset in between
    the listeners of the earlier notifications stay and fire as well. *)
Theorem click_sends_one_message_after_reset o d :
  is_Some (Preload.setContents o d) →
  let fresh := default d (Preload.setContents o (Preload.reset d)) in
  let stale := default d (Preload.setContents o d) in
  Preload.click_close fresh = [Preload.SendClose o]
  ∧ Preload.click_container fresh = [Preload.SendClick o]
  ∧ Preload.click_container stale
    = Preload.click_container d ++ [Preload.SendClick o]
  ∧ Preload.click_close stale
    = (Preload.fire <$> Preload.listeners (Preload.close d))
      ++ [Preload.SendClose o].
Proof.
  intros [d0 Hd0] fresh stale.
  assert (Preload.play_sound (prop o "sound") (Preload.played d) ≠ None) as Hs.
  { unfold Preload.setContents in Hd0. by destruct (Preload.play_sound _ _). }
  destruct (setContents_Some o (Preload.reset d) Hs) as (d1 & H1 & Hc1 & Hk1 & _).
  destruct (setContents_Some o d Hs) as (d2 & H2 & Hc2 & Hk2 & _).
  subst fresh stale. rewrite H1, H2. simpl.
  unfold Preload.click_close, Preload.click_container.
  rewrite Hc1, Hk1, Hc2, Hk2. simpl. rewrite !fmap_app. simpl.
  repeat split; try done.
  destruct (Preload.listeners (Preload.close d)) as [|l ls]; [done |].
  simpl. by rewrite fmap_app.
Qed.

Lemma click_sends_one_message_after_reset_witness :
  let empty := Preload.Element VUndefined VUndefined ∅ [] in
  let d := Preload.Document empty empty empty empty empty [] in
  let o1 : gmap string val := {[ "title" := VStr "one" ]} in
  let o2 : gmap string val := {[ "title" := VStr "two" ]} in
  let shown1 := Preload.receive (Preload.SetContents o1) d in
  is_Some (Preload.setContents o2 shown1)
  ∧ Preload.click_close
      (Preload.receive_all [Preload.Reset; Preload.SetContents o2] shown1)
    = [Preload.SendClose o2]
  ∧ Preload.click_close (Preload.receive (Preload.SetContents o2) shown1)
    = [Preload.SendClose o1; Preload.SendClose o2].
Proof.
  intros empty d o1 o2 shown1.
  assert (is_Some (Preload.setContents o2 shown1)) as Hs
    by (vm_compute; eexists; reflexivity).
  split; [exact Hs |].
  destruct (click_sends_one_message_after_reset o2 shown1 Hs) as (H1 & _ & _ & H4).
  split; [exact H1 |].
  etransitivity; [exact H4 |]. vm_compute. reflexivity.
Defined.

Lemma image_hidden_receive m d :
  Preload.style (Preload.image d) !! "display" = Some (VStr "none") →
  Preload.style (Preload.image (Preload.receive m d)) !! "display"
  = Some (VStr "none").
Proof.
  intros Hd. destruct m as [o |]; simpl; [| done].
  unfold Preload.setContents.
  destruct (Preload.play_sound _ _); simpl; [| done].
  destruct (truthy (prop o "image")); simpl; [done |].
  apply lookup_union_Some_l. by rewrite lookup_singleton_eq.
Qed.

(** Rendering a notification without an image sets [display: none] on
    the image element, and nothing ever takes it back: whatever the
    window renders afterwards, resets included, a later notification's
    image gets its [src] set on an element that stays hidden. *)
Theorem image_stays_hidden_after_a_notification_without_image o ms d :
  is_Some (Preload.setContents o d) →
  truthy (prop o "image") = false →
  let d1 := Preload.receive (Preload.SetContents o) d in
  Preload.style (Preload.image (Preload.receive_all ms d1)) !! "display"
  = Some (VStr "none").
Proof.
  intros [d0 Hd0] Hi d1.
  assert (Preload.style (Preload.image d1) !! "display" = Some (VStr "none")) as H1.
  { subst d1. simpl. rewrite Hd0. simpl. unfold Preload.setContents in Hd0.
    destruct (Preload.play_sound _ _); [| done]. simplify_eq. simpl.
    rewrite Hi. simpl. apply lookup_union_Some_l. by rewrite lookup_singleton_eq. }
  clearbody d1. clear Hd0 d0.
  revert d1 H1. induction ms as [|m ms IH]; intros d1 H1; [done |].
  simpl. apply IH. by apply image_hidden_receive.
Qed.

Lemma image_stays_hidden_after_a_notification_without_image_witness :
  let empty := Preload.Element VUndefined VUndefined ∅ [] in
  let d := Preload.Document empty empty empty empty empty [] in
  let plain : gmap string val := {[ "title" := VStr "one" ]} in
  let picture : gmap string val :=
    {[ "title" := VStr "two"; "image" := VStr "/tmp/cat.png" ]} in
  let d' := Preload.receive_all
              [Preload.SetContents plain; Preload.Reset;
               Preload.SetContents picture] d in
  truthy (prop plain "image") = false
  ∧ Preload.src (Preload.image d') = VStr "/tmp/cat.png"
  ∧ Preload.style (Preload.image d') !! "display" = Some (VStr "none").
Proof.
  intros empty d plain picture d'. split; [vm_compute; reflexivity |].
  split; [vm_compute; reflexivity |].
  apply (image_stays_hidden_after_a_notification_without_image plain
           [Preload.Reset; Preload.SetContents picture] d).
  - vm_compute. eexists. reflexivity.
  - vm_compute. reflexivity.
Defined.

(** The sound of a notification: a string is played only when it
    starts with 'file:' or '/', any other string (a remote URL) is
    skipped without a word, and a truthy value that is no string makes
    [setContents] throw before title, text, image and listeners are
    set; in the first two cases title and text are set, to the empty
    string when absent. *)
Theorem sound_is_played_only_when_local o d :
  match prop o "sound" with
  | VStr s =>
      ∃ d', Preload.setContents o d = Some d'
            ∧ Preload.played d'
              = Preload.played d
                ++ (if String.prefix "file:" s || String.prefix "/" s
                    then [s] else [])
            ∧ Preload.innerHTML (Preload.title d')
              = Preload.or_empty (prop o "title")
            ∧ Preload.innerHTML (Preload.message d')
              = Preload.or_empty (prop o "text")
  | v =>
      if truthy v
      then Preload.setContents o d = None
           ∧ Preload.receive (Preload.SetContents o) d = d
      else ∃ d', Preload.setContents o d = Some d'
                 ∧ Preload.played d' = Preload.played d
  end.
Proof.
  unfold Preload.receive, Preload.setContents, Preload.play_sound.
  destruct (prop o "sound") as [| | b | n | s | f | r]; simpl;
    try (eexists; split; [reflexivity | done]).
  - destruct b; [done |]. eexists. split; [reflexivity | done].
  - destruct (n =? 0)%Z; simpl; [| done]. eexists. split; [reflexivity | done].
  - destruct s as [|a s]; simpl.
    + eexists. split; [reflexivity |]. by rewrite app_nil_r.
    + destruct (_ || _); eexists; (split; [reflexivity |]); simpl;
        by rewrite ?app_nil_r.
  - done.
  - done.
Qed.

Example sound_prefixes :
  Preload.play_sound (VStr "file:///tmp/ding.wav") [] = Some ["file:///tmp/ding.wav"]
  ∧ Preload.play_sound (VStr "/tmp/ding.wav") [] = Some ["/tmp/ding.wav"]
  ∧ Preload.play_sound (VStr "https://example.org/ding.wav") [] = Some []
  ∧ Preload.play_sound (VNum 5) [] = None
  ∧ Preload.play_sound VUndefined [] = Some [].
Proof. by vm_compute. Qed.

(** ** First come, first shown *)

Lemma lined_up_view es s s' : view s' = view s → lined_up es s → lined_up es s'.
Proof.
  unfold view. intros [= Hc Hq Hp Ha Hn Ht].
  unfold lined_up, displayed, awaited, queued.
  by rewrite Hc, Hq, Hp, Ha, Hn, Ht.
Qed.

Lemma lined_up_submitted es es' s :
  submitted es' = submitted es → lined_up es s → lined_up es' s.
Proof. unfold lined_up. by intros ->. Qed.

Lemma animate_show_view r s :
  promises s = [] →
  let s' := animate_show r s in
  config s' = config s ∧ animationQueue s' = animationQueue s
  ∧ activeNotifications s' = activeNotifications s ∧ timers s' = timers s
  ∧ ((Z.of_nat (length (activeNotifications s))
        < maxVisibleNotifications (config s))%Z
     ∧ notificationQueue s' = notificationQueue s
     ∧ (∃ w f, promises s' = [AwaitWindow r w f])
     ∨ (maxVisibleNotifications (config s)
          ≤ Z.of_nat (length (activeNotifications s)))%Z
       ∧ notificationQueue s' = notificationQueue s ++ [r]
       ∧ promises s' = [Resolved]).
Proof.
  intros Hp. unfold animate_show, showNotification, getWindow.
  destruct (Z.ltb_spec (Z.of_nat (length (activeNotifications s)))
              (maxVisibleNotifications (config s))).
  - destruct (last (inactiveWindows s)); simpl; rewrite Hp;
      (repeat split; try done); left; eauto.
  - simpl. rewrite Hp. repeat split; try done. right. done.
Qed.

(** Starting the show task of the request that is next in line. *)
Lemma lined_up_animate_show es r rest s :
  promises s = [] →
  AnimationQueue.running (animationQueue s) = true →
  AnimationQueue.queue (animationQueue s) = rest →
  forallb is_show rest = true →
  length (activeNotifications s) = length (timers s) →
  (notificationQueue s ≠ [] →
   (maxVisibleNotifications (config s)
      ≤ Z.of_nat (length (activeNotifications s)))%Z) →
  submitted es
  = displayed s ++ notificationQueue s
    ++ r :: omap (fun t => match t with Show r => Some r | Close _ _ => None end) rest →
  lined_up es (animate_show r s).
Proof.
  intros Hp Hr Hq Hshow Hat Hfull Hord.
  destruct (animate_show_view r s Hp) as (Hc & Haq & Ha & Ht & Hcase).
  unfold lined_up, displayed, awaited, queued.
  rewrite Hc, Haq, Ha, Ht, Hq, Hr.
  destruct Hcase as [(Hlt & Hn & w & f & Hp') | (Hge & Hn & Hp')];
    rewrite Hn, Hp'; simpl.
  - assert (notificationQueue s = []) as Hnil.
    { destruct (notificationQueue s) eqn:E; [done |].
      assert (notificationQueue s ≠ []) as Hne by (by rewrite E).
      rewrite E in Hne. specialize (Hfull Hne). lia. }
    rewrite Hnil in *. simpl in *.
    split_and!; try done; try lia.
  - rewrite <- !app_assoc. simpl.
    split_and!; try done; try lia.
Qed.

Lemma showNotification_then_view r w s :
  let s' := showNotification_then r w s in
  config s' = config s ∧ animationQueue s' = animationQueue s
  ∧ promises s' = promises s ∧ notificationQueue s' = notificationQueue s
  ∧ activeNotifications s' = activeNotifications s ++ [w]
  ∧ timers s'
    = timers s ++ [(nextTimer s, Closer w r (Some (nextTimer s)))].
Proof. unfold showNotification_then, setTimeout. by repeat case_match. Qed.

Lemma lined_up_step es e s :
  closes_nothing e = true → lined_up es s → lined_up (es ++ [e]) (step e s).
Proof.
  intros He Hinv. pose proof Hinv as (Hord & Hfull & Hlen & Hidle & Hat & Hshow).
  assert (∀ e', submitted (es ++ [e']) = submitted es ++ submitted [e']) as Hsub
    by (intros e'; apply omap_app).
  destruct e as [args | | i | i | t | k reason | w r | w r]; try done;
    unfold step.
  - destruct (is_valid_call (Notify args)) eqn:Hv.
    + destruct args as [|[] [|]]; try done. rewrite notify_object.
      set (s1 := set_latestID _ _).
      assert (view s1 = view s) as Hv1 by done.
      apply (lined_up_view _ (push_show r s1)); [done |].
      unfold push_show, AnimationQueue.push.
      change (animationQueue s1) with (animationQueue s).
      destruct (AnimationQueue.running (animationQueue s)) eqn:Hr.
      * unfold lined_up, displayed, awaited, queued in *. simpl.
        rewrite Hsub, Hord, omap_app, forallb_app, Hshow. simpl.
        rewrite <- !app_assoc. split_and!; done.
      * destruct (Hidle eq_refl) as [Hp Hq].
        apply (lined_up_animate_show _ r []); simpl; try done.
        -- intros Hne. by destruct (Hfull Hne).
        -- unfold displayed, awaited, queued in *.
           rewrite Hsub, Hord, Hp, Hq. simpl. by rewrite <- !app_assoc.
    + apply (lined_up_submitted es).
      { rewrite Hsub. destruct args as [|[] [|]]; try done; by rewrite app_nil_r. }
      destruct (notify args s) as [c s1] eqn:E.
      assert (view s1 = view s) as Hv1.
      { unfold notify, log in E.
        repeat case_match; simplify_eq; try done. }
      destruct c; (eapply lined_up_view; [| exact Hinv]); by rewrite <- Hv1.
  - apply (lined_up_submitted es);
      [rewrite Hsub; simpl; by rewrite app_nil_r |].
    destruct (promises s !! i) as [[r w fresh|]|] eqn:Hi; try done.
    assert (promises s = [AwaitWindow r w fresh] ∧ i = 0) as [Hp ->].
    { destruct (promises s) as [|p [|p' l]]; simpl in *; try done; try lia.
      destruct i; simpl in *; [by simplify_eq | done]. }
    set (s0 := if fresh then _ else s).
    assert (view s0 = view s ∧ nextTimer s0 = nextTimer s) as [Hv0 Hn0]
      by (by destruct fresh).
    injection Hv0 as Hc0 Hq0 Hp0 Ha0 Hn0' Ht0.
    destruct (showNotification_then_view r w s0) as (Hc1 & Hq1 & Hp1 & Hnq1 & Ha1 & Ht1).
    revert Hc1 Hq1 Hp1 Hnq1 Ha1 Ht1. generalize (showNotification_then r w s0).
    intros s1 Hc1 Hq1 Hp1 Hnq1 Ha1 Ht1.
    unfold lined_up, displayed, awaited, queued in *. simpl.
    rewrite Hc1, Hq1, Hp1, Hnq1, Ha1, Ht1, Hc0, Hq0, Hp0, Ha0, Hn0', Ht0.
    rewrite Hp in *. simpl in *. rewrite fmap_app, !length_app. simpl.
    assert (notificationQueue s = []) as Hnil.
    { destruct (notificationQueue s) as [|q0 nq] eqn:E; [done |].
      assert (q0 :: nq ≠ []) as Hne by done. by destruct (Hfull Hne). }
    rewrite Hnil in *. simpl in *. rewrite <- app_assoc. simpl.
    split_and!; try done; try lia.
    intros Hf. by destruct (Hidle Hf).
  - apply (lined_up_submitted es);
      [rewrite Hsub; simpl; by rewrite app_nil_r |].
    destruct (promises s !! i) as [[r w fresh|]|] eqn:Hi; try done.
    assert (promises s = [Resolved] ∧ i = 0) as [Hp ->].
    { destruct (promises s) as [|p [|p' l]]; simpl in *; try done; try lia.
      destruct i; simpl in *; [by simplify_eq | done]. }
    assert (AnimationQueue.running (animationQueue s) = true) as Hr.
    { destruct (AnimationQueue.running (animationQueue s)); [done |].
      destruct (Hidle eq_refl) as [Hnil _]. by rewrite Hnil in Hp. }
    unfold AnimationQueue.fulfilled. rewrite Hp. simpl delete.
    destruct (AnimationQueue.queue (animationQueue s)) as [|[r | c event] rest] eqn:Hq;
      cbn [animate]; [| | by simpl in Hshow].
    + unfold lined_up, displayed, awaited, queued in *. simpl.
      rewrite Hp, Hq in *. simpl in *. split_and!; try done; try lia.
    + apply (lined_up_animate_show _ r rest); simpl; try done.
      * intros Hne. by destruct (Hfull Hne).
      * unfold displayed, awaited, queued in *. rewrite Hord, Hp, Hq. done.
  - apply (lined_up_submitted es);
      [rewrite Hsub; simpl; by rewrite app_nil_r |].
    destruct (w <? nextWindow s); [| done].
    eapply lined_up_view; [| exact Hinv].
    unfold ipc_click. by repeat case_match.
Qed.

(** As long as nothing is closed, the requests stay in the order of
    their [notify] calls: first those on display (never more than the
    limit), then the one whose window is being fetched, then the
    overflow queue, then those whose show task still waits.  So the
    first [maxVisibleNotifications] requests are the ones displayed, in
    call order, and the others wait behind them in call order. *)
Theorem requests_are_shown_in_call_order h hp es :
  forallb closes_nothing es = true →
  let s := run es (init h hp) in
  submitted es = displayed s ++ awaited s ++ notificationQueue s ++ queued s
  ∧ length (displayed s) = length (activeNotifications s)
  ∧ (notificationQueue s ≠ [] →
     (maxVisibleNotifications (config s)
        ≤ Z.of_nat (length (displayed s)))%Z).
Proof.
  intros Hes s.
  assert (lined_up es s) as (Hord & Hfull & _ & _ & Hat & _).
  { subst s. induction es as [|e es IH] using rev_ind.
    - unfold lined_up. simpl. split_and!; try done. lia.
    - rewrite forallb_app in Hes. apply andb_prop in Hes as [Hes He].
      simpl in He. rewrite andb_true_r in He.
      rewrite run_step. apply lined_up_step; [done | by apply IH]. }
  split; [exact Hord |].
  assert (length (displayed s) = length (activeNotifications s)) as Hl
    by (unfold displayed; by rewrite length_fmap).
  split; [exact Hl |]. intros Hne. rewrite Hl. by destruct (Hfull Hne).
Qed.

(** A limit of two: of four requests the first two are displayed, the
    next two wait in call order. *)
Lemma requests_are_shown_in_call_order_witness :
  let es := [Notify [VObj 7]; Notify [VObj 5]; Notify [VObj 9]; Notify [VObj 3];
             WindowReady 0; TaskDone 0; WindowReady 0; TaskDone 0] in
  let s := run es (init 150 ∅) in
  forallb closes_nothing es = true
  ∧ displayed s = [7; 5]
  ∧ notificationQueue s = [9]
  ∧ queued s = [3]
  ∧ submitted es = displayed s ++ awaited s ++ notificationQueue s ++ queued s.
Proof.
  intros es s. split; [reflexivity |].
  split; [vm_compute; reflexivity |]. split; [vm_compute; reflexivity |].
  split; [vm_compute; reflexivity |].
  exact (proj1 (requests_are_shown_in_call_order 150 ∅ es eq_refl)).
Defined.
